(** * Agent-as-tool invocation core: history propagation and stream reconstruction

    A shallow embedding of [task/tools/deployment/base_agent_tool.py]
    ([BaseAgentTool._prepare_messages] and [BaseAgentTool._execute]) together
    with the properties of the specification that concern them.

    Python values of type [Any] (parsed JSON, pydantic [.dict()] output) are
    values of [json]; dictionaries are finite maps; exceptions are the [Raise]
    branch of [result]. *)

From stdpp Require Import base option list gmap strings.
From Stdlib Require Import ZArith Lia.

Set Warnings "-register-all".
Local Open Scope Z_scope.

(** ** Python values, truthiness, indexing and exceptions *)

Module Py.

(** What [json.loads] and [.dict()] produce.  Numbers are the integers;
    floating point numbers are not modelled. *)
Inductive json :=
  | JNull
  | JBool (b : bool)
  | JNum (n : Z)
  | JStr (s : string)
  | JArr (l : list json)
  | JObj (m : gmap string json).

(** [bool(v)]: [None], [False], [0], [''], [[]] and [{}] are falsy. *)
Definition truthy (v : json) : bool :=
  match v with
  | JNull => false
  | JBool b => b
  | JNum n => negb (n =? 0)
  | JStr s => negb (String.eqb s "")
  | JArr l => match l with [] => false | _ :: _ => true end
  | JObj m => negb (bool_decide (m = ∅))
  end.

(** Truthiness of an [Optional[str]] and of an [Optional[list]]. *)
Definition truthy_str (o : option string) : bool :=
  match o with Some s => negb (String.eqb s "") | None => false end.

Definition truthy_list {A} (o : option (list A)) : bool :=
  match o with Some (_ :: _) => true | _ => false end.

Inductive exn :=
  | KeyError (key : string)
  | IndexError
  | AttributeError
  | RuntimeError (msg : string)
  | TransportError.

Inductive result (A : Type) :=
  | Ok (a : A)
  | Raise (e : exn).
Global Arguments Ok {A} a.
Global Arguments Raise {A} e.

Global Instance result_ret : MRet result := λ A, Ok.
Global Instance result_bind : MBind result := λ A B f r,
  match r with Ok a => f a | Raise e => Raise e end.

(** [l[i]] with Python's negative indices: [l[-1]] is the last element. *)
Definition py_index {A} (l : list A) (i : Z) : result A :=
  let n := Z.of_nat (length l) in
  let j := if decide (i < 0) then i + n else i in
  if decide (0 ≤ j) then
    match l !! Z.to_nat j with Some x => Ok x | None => Raise IndexError end
  else Raise IndexError.

(** [d[k]] on a dictionary. *)
Definition py_getitem (d : gmap string json) (k : string) : result json :=
  match d !! k with Some v => Ok v | None => Raise (KeyError k) end.

(** [v.get(k)]: only dictionaries have the method; a missing key gives
    [None]. *)
Definition py_get (v : json) (k : string) : result json :=
  match v with
  | JObj m => Ok (default JNull (m !! k))
  | _ => Raise AttributeError
  end.

(** One field of a [.dict(exclude_none=True)]: absent when the value is
    [None]. *)
Definition put (k : string) (v : option json) (d : gmap string json)
  : gmap string json :=
  match v with Some x => <[k:=x]> d | None => d end.

Definition not_none (v : json) : option json :=
  match v with JNull => None | _ => Some v end.

End Py.
Import Py.

(** ** The SDK's message vocabulary *)

Module Sdk.

Inductive Role := SYSTEM | USER | ASSISTANT | FUNCTION | TOOL.

Global Instance Role_eq_dec : EqDecision Role.
Proof. solve_decision. Defined.

Definition Role_value (r : Role) : string :=
  match r with
  | SYSTEM => "system" | USER => "user" | ASSISTANT => "assistant"
  | FUNCTION => "function" | TOOL => "tool"
  end.

(** An attachment is passed through verbatim. *)
Record Attachment := {
  att_type : option string;
  att_title : option string;
  att_data : option string;
  att_url : option string;
  att_reference_url : option string;
  att_reference_type : option string;
}.

(** [state] is [Optional[Any]]: [JNull] is Python's [None]. *)
Record CustomContent := {
  cc_attachments : option (list Attachment);
  cc_state : json;
}.

(** The fields of a message this code reads or writes. *)
Record Message := {
  role : Role;
  content : option string;
  custom_content : option CustomContent;
  tool_call_id : option string;
}.

Definition Attachment_dict (a : Attachment) : json :=
  JObj (put "type" (JStr <$> att_type a)
       (put "title" (JStr <$> att_title a)
       (put "data" (JStr <$> att_data a)
       (put "url" (JStr <$> att_url a)
       (put "reference_url" (JStr <$> att_reference_url a)
       (put "reference_type" (JStr <$> att_reference_type a) ∅)))))).

(** [custom_content.dict(exclude_none=True)] *)
Definition CustomContent_dict (cc : CustomContent) : json :=
  JObj (put "attachments" ((λ l, JArr (Attachment_dict <$> l)) <$> cc_attachments cc)
       (put "state" (not_none (cc_state cc)) ∅)).

(** [msg.dict(exclude_none=True)] *)
Definition Message_dict (m : Message) : json :=
  JObj (put "role" (Some (JStr (Role_value (role m))))
       (put "content" (JStr <$> content m)
       (put "custom_content" (CustomContent_dict <$> custom_content m)
       (put "tool_call_id" (JStr <$> tool_call_id m) ∅)))).

(** [copied_msg.custom_content.state = v] on a (deep) copy of [m]. *)
Definition set_state (m : Message) (v : json) : Message :=
  {| role := role m;
     content := content m;
     custom_content :=
       (λ cc, {| cc_attachments := cc_attachments cc; cc_state := v |})
         <$> custom_content m;
     tool_call_id := tool_call_id m |}.

(** Modelled from the spec: the SDK's [Stage] class is not part of the
    sources.  "While open it accumulates a name suffix and/or content and/or
    attachments.  A stage is append-only [...]  A stage transitions to closed
    exactly once and must not accept further mutation afterward."  A stage is
    what was appended to it so far and whether it is closed; appending to a
    closed stage raises. *)
Record Stage := {
  stage_name : string;
  stage_content : string;
  stage_attachments : list Attachment;
  stage_closed : bool;
}.

Definition closed_error {A} (what : string) : result A :=
  Raise (RuntimeError ("Trying to " +:+ what +:+ " a closed stage")).

Definition append_name (s : Stage) (name : string) : result Stage :=
  if stage_closed s then closed_error "append name to"
  else Ok {| stage_name := stage_name s +:+ name;
             stage_content := stage_content s;
             stage_attachments := stage_attachments s;
             stage_closed := false |}.

Definition append_content (s : Stage) (text : string) : result Stage :=
  if stage_closed s then closed_error "append content to"
  else Ok {| stage_name := stage_name s;
             stage_content := stage_content s +:+ text;
             stage_attachments := stage_attachments s;
             stage_closed := false |}.

Definition add_attachment (s : Stage) (a : Attachment) : result Stage :=
  if stage_closed s then closed_error "add attachment to"
  else Ok {| stage_name := stage_name s;
             stage_content := stage_content s;
             stage_attachments := stage_attachments s ++ [a];
             stage_closed := false |}.

End Sdk.
Import Sdk.

(** ** [task.utils.stage.StageProcessor] *)

Module StageProcessor.

(** Modelled from the spec: [StageProcessor.open_stage] is not part of the
    sources.  "Open a new stage in the caller's stage surface using
    the name fragment (or, for non-name deltas arriving for an unseen index,
    open with an empty name)". *)
Definition open_stage (name : option string) : Stage :=
  {| stage_name := default "" name;
     stage_content := "";
     stage_attachments := [];
     stage_closed := false |}.

(** Modelled from the spec: [StageProcessor.close_stage_safely] is not part
    of the sources.  "Closing is idempotent-safe: closing an
    already-closed stage must be a no-op, never an error (defensive
    close)". *)
Definition close_stage_safely (s : Stage) : Stage :=
  if stage_closed s then s
  else {| stage_name := stage_name s;
          stage_content := stage_content s;
          stage_attachments := stage_attachments s;
          stage_closed := true |}.

End StageProcessor.

(** ** [BaseAgentTool] *)

Module BaseAgentTool.

(** The tool object: its endpoint, its deployment name and the name under
    which the calling agent files this callee's state. *)
Record Tool := {
  endpoint : string;
  deployment_name : string;
  name : string;
}.

(** [ToolCallParams]; [arguments] is the tool call's argument string after
    [json.loads]. *)
Record ToolCallParams := {
  tool_call_id_of : string;
  arguments : gmap string json;
  stage : Stage;
  messages : list Message;
  conversation_id : string;
  api_key : string;
}.

(** *** [_prepare_messages] *)

(** Body of the loop over [idx]: what one transcript position appends to
    [messages]. *)
Definition history_turn (callee : string) (msgs : list Message) (idx : nat)
  : result (list json) :=
  msg ← py_index msgs (Z.of_nat idx);
  if decide (role msg = ASSISTANT) then
    match custom_content msg with
    | Some cc =>
        if truthy (cc_state cc) then
          let msg_state := cc_state cc in
          sub ← py_get msg_state callee;
          if truthy sub then
            prev ← py_index msgs (Z.of_nat idx - 1);
            Ok [Message_dict prev; Message_dict (set_state msg sub)]
          else Ok []
        else Ok []
    | None => Ok []
    end
  else Ok [].

(** [for idx in range(len(messages))], threading the list built so far. *)
Fixpoint history_loop (callee : string) (msgs : list Message)
    (idxs : list nat) (out : list json) : result (list json) :=
  match idxs with
  | [] => Ok out
  | idx :: rest =>
      emitted ← history_turn callee msgs idx;
      history_loop callee msgs rest (out ++ emitted)
  end.

(** The user turn appended last. *)
Definition prompt_turn (prompt : json) (cc : option CustomContent) : json :=
  JObj {[ "role" := JStr "user";
          "content" := prompt;
          "custom_content" :=
            match cc with Some c => CustomContent_dict c | None => JNull end ]}.

Definition _prepare_messages (self : Tool) (p : ToolCallParams)
  : result (list json) :=
  prompt ← py_getitem (arguments p) "prompt";
  let propagate_history :=
    truthy (default (JBool false) (arguments p !! "propagate_history")) in
  out ← (if propagate_history
         then history_loop (name self) (messages p)
                (seq 0 (length (messages p))) []
         else Ok []);
  last_msg ← py_index (messages p) (-1);
  Ok (out ++ [prompt_turn prompt (custom_content last_msg)]).

(** *** The callee's response stream *)

(** One stage-delta of a chunk ([stg] after [cc.dict(exclude_none=True)]). *)
Record StageDelta := {
  sd_index : Z;
  sd_name : option string;
  sd_content : option string;
  sd_attachments : option (list Attachment);
  sd_status : option string;
}.

Record CustomContentDelta := {
  ccd_attachments : option (list Attachment);
  ccd_state : json;
  ccd_stages : option (list StageDelta);
}.

Record Delta := {
  delta_content : option string;
  delta_custom_content : option CustomContentDelta;
}.

Record ChunkChoice := { choice_delta : option Delta }.

Record Chunk := { choices : list ChunkChoice }.

(** How iteration over the chunks ends: the stream is exhausted, or the
    transport raises after the chunks delivered so far. *)
Inductive StreamEnd := Exhausted | Failed.

Record ChunkStream := {
  stream_chunks : list Chunk;
  stream_end : StreamEnd;
}.

(** What [client.chat.completions.create] is called with. *)
Record Request := {
  req_endpoint : string;
  req_api_key : string;
  req_deployment_name : string;
  req_messages : list json;
  req_configuration : gmap string json;
  req_conversation_id : string;
}.

(** *** [_execute] *)

(** The variables of step 3, and the caller's own stage. *)
Record Reconstruction := {
  r_stage : Stage;
  r_content : string;
  r_custom_content : CustomContent;
  r_stages_map : gmap Z Stage;
}.

(** What the invocation leaves behind: the returned message, the caller's
    stage, the stages it opened on the choice (by index) and the attachments
    it added to the choice. *)
Record Outcome := {
  message : Message;
  final_stage : Stage;
  final_stages : gmap Z Stage;
  choice_attachments : list Attachment;
}.

(** [for stg_attachment in stg_attachments: opened_stg.add_attachment(...)] *)
Fixpoint add_attachments (s : Stage) (atts : list Attachment) : result Stage :=
  match atts with
  | [] => Ok s
  | a :: rest => s' ← add_attachment s a; add_attachments s' rest
  end.

Definition is_completed (status : option string) : bool :=
  match status with Some s => String.eqb s "completed" | None => false end.

(** Body of [for stg in stages]. *)
Definition propagate_stage (stages_map : gmap Z Stage) (stg : StageDelta)
  : result (gmap Z Stage) :=
  let idx := sd_index stg in
  match stages_map !! idx with
  | Some opened_stg =>
      if truthy_str (sd_name stg) then
        s ← append_name opened_stg (default "" (sd_name stg));
        Ok (<[idx:=s]> stages_map)
      else if truthy_str (sd_content stg) then
        s ← append_content opened_stg (default "" (sd_content stg));
        Ok (<[idx:=s]> stages_map)
      else if truthy_list (sd_attachments stg) then
        s ← add_attachments opened_stg (default [] (sd_attachments stg));
        Ok (<[idx:=s]> stages_map)
      else if is_completed (sd_status stg) then
        Ok (<[idx:=StageProcessor.close_stage_safely opened_stg]> stages_map)
      else Ok stages_map
  | None =>
      Ok (<[idx:=StageProcessor.open_stage (sd_name stg)]> stages_map)
  end.

Fixpoint propagate_stages (stages_map : gmap Z Stage) (stages : list StageDelta)
  : result (gmap Z Stage) :=
  match stages with
  | [] => Ok stages_map
  | stg :: rest =>
      m ← propagate_stage stages_map stg;
      propagate_stages m rest
  end.

(** [if cc := delta.custom_content: ...] *)
Definition collect_custom_content (st : Reconstruction) (cc : CustomContentDelta)
  : result Reconstruction :=
  let attachments' :=
    if truthy_list (ccd_attachments cc)
    then (λ l, l ++ default [] (ccd_attachments cc))
           <$> cc_attachments (r_custom_content st)
    else cc_attachments (r_custom_content st) in
  let state' :=
    if truthy (ccd_state cc) then ccd_state cc
    else cc_state (r_custom_content st) in
  stages_map' ←
    (if truthy_list (ccd_stages cc)
     then propagate_stages (r_stages_map st) (default [] (ccd_stages cc))
     else Ok (r_stages_map st));
  Ok {| r_stage := r_stage st;
        r_content := r_content st;
        r_custom_content :=
          {| cc_attachments := attachments'; cc_state := state' |};
        r_stages_map := stages_map' |}.

(** [if delta and delta.content: ...]: the text is mirrored to the caller's
    stage and appended to [content]. *)
Definition mirror_content (st : Reconstruction) (delta : Delta)
  : result Reconstruction :=
  if truthy_str (delta_content delta) then
    let text := default "" (delta_content delta) in
    stage' ← append_content (r_stage st) text;
    Ok {| r_stage := stage';
          r_content := r_content st +:+ text;
          r_custom_content := r_custom_content st;
          r_stages_map := r_stages_map st |}
  else Ok st.

(** Body of [async for chunk in chunks].  A choice without a delta passes
    the guard of the content branch and then fails on
    [delta.custom_content]. *)
Definition consume_chunk (st : Reconstruction) (chunk : Chunk)
  : result Reconstruction :=
  match choices chunk with
  | [] => Ok st
  | choice :: _ =>
      match choice_delta choice with
      | None => Raise AttributeError
      | Some delta =>
          st1 ← mirror_content st delta;
          match delta_custom_content delta with
          | Some cc => collect_custom_content st1 cc
          | None => Ok st1
          end
      end
  end.

Fixpoint consume_chunks (st : Reconstruction) (chunks : list Chunk)
  : result Reconstruction :=
  match chunks with
  | [] => Ok st
  | chunk :: rest => st' ← consume_chunk st chunk; consume_chunks st' rest
  end.

Definition consume_stream (st : Reconstruction) (chunks : ChunkStream)
  : result Reconstruction :=
  st' ← consume_chunks st (stream_chunks chunks);
  match stream_end chunks with
  | Exhausted => Ok st'
  | Failed => Raise TransportError
  end.

(** Step 3: the empty accumulators, next to the caller's stage. *)
Definition fresh (caller_stage : Stage) : Reconstruction :=
  {| r_stage := caller_stage;
     r_content := "";
     r_custom_content := {| cc_attachments := Some []; cc_state := JNull |};
     r_stages_map := ∅ |}.

Section Invocation.

(** [str(v)] as the f-string of step 1 renders the prompt. *)
Variable py_str : json → string.

(** The callee: the chunk stream it answers a request with. *)
Variable send : Request → ChunkStream.

(** Step 1: label the caller's stage with the prompt and strip the prompt
    from the forwarded arguments. *)
Definition label_stage (p : ToolCallParams)
  : result (Stage * gmap string json) :=
  let prompt := default JNull (arguments p !! "prompt") in
  if truthy prompt then
    s ← append_name (stage p) (": " +:+ py_str prompt);
    Ok (s, delete "prompt" (arguments p))
  else Ok (stage p, arguments p).

(** Step 2: the request sent to the callee. *)
Definition build_request (self : Tool) (p : ToolCallParams)
    (forwarded : gmap string json) (msgs : list json) : Request :=
  {| req_endpoint := endpoint self;
     req_api_key := api_key p;
     req_deployment_name := deployment_name self;
     req_messages := msgs;
     req_configuration := forwarded;
     req_conversation_id := conversation_id p |}.

(** The request [_execute] sends, when it gets as far as sending one. *)
Definition request (self : Tool) (p : ToolCallParams) : result Request :=
  '(_, forwarded) ← label_stage p;
  msgs ← _prepare_messages self p;
  Ok (build_request self p forwarded msgs).

Definition _execute (self : Tool) (p : ToolCallParams) : result Outcome :=
  '(stage1, forwarded) ← label_stage p;
  msgs ← _prepare_messages self p;
  let req := build_request self p forwarded msgs in
  let chunks := send req in
  st ← consume_stream (fresh stage1) chunks;
  let stages := StageProcessor.close_stage_safely <$> r_stages_map st in
  Ok {| message :=
          {| role := TOOL;
             content := Some (r_content st);
             custom_content := Some (r_custom_content st);
             tool_call_id := Some (tool_call_id_of p) |};
        final_stage := r_stage st;
        final_stages := stages;
        choice_attachments :=
          default [] (cc_attachments (r_custom_content st)) |}.

End Invocation.

End BaseAgentTool.
Import BaseAgentTool.

(** ** The specification's vocabulary

    Definitions that follow the words of the specification; the theorems
    below relate them to the code above. *)

Module Spec.

(** *** History propagation *)

(** The callee's sub-state in a turn: the turn is an assistant turn whose
    state is a mapping with a truthy entry under the callee's identity. *)
Definition callee_state (callee : string) (m : Message) : option json :=
  if decide (role m = ASSISTANT) then
    match custom_content m with
    | Some cc =>
        match cc_state cc with
        | JObj d =>
            match d !! callee with
            | Some v => if truthy v then Some v else None
            | None => None
            end
        | _ => None
        end
    | None => None
    end
  else None.

(** "[customContent.state], when present on an assistant turn, is a
    mapping". *)
Definition state_is_mapping (m : Message) : bool :=
  if decide (role m = ASSISTANT) then
    match custom_content m with
    | Some cc =>
        match cc_state cc with JNull | JObj _ => true | _ => false end
    | None => true
    end
  else true.

(** The callee's private thread: for every turn [m] after [prev] that holds
    the callee's sub-state, the turn before it unmodified and then [m]
    narrowed to that sub-state, in transcript order. *)
Fixpoint callee_thread (callee : string) (prev : Message)
    (rest : list Message) : list json :=
  match rest with
  | [] => []
  | m :: rest' =>
      match callee_state callee m with
      | Some sub => [Message_dict prev; Message_dict (set_state m sub)]
      | None => []
      end ++ callee_thread callee m rest'
  end.

(** *** Stream reconstruction *)

Definition joined (fragments : list string) : string :=
  foldr String.append "" fragments.

(** The delta of a chunk's first choice. *)
Definition first_delta (c : Chunk) : option Delta :=
  match choices c with
  | choice :: _ => choice_delta choice
  | [] => None
  end.

Definition custom_delta (c : Chunk) : option CustomContentDelta :=
  first_delta c ≫= delta_custom_content.

(** The content delta a chunk carries, if any. *)
Definition content_delta (c : Chunk) : list string :=
  match first_delta c with
  | Some d =>
      if truthy_str (delta_content d) then [default "" (delta_content d)]
      else []
  | None => []
  end.

Definition attachment_delta (c : Chunk) : list Attachment :=
  match custom_delta c with
  | Some cc => default [] (ccd_attachments cc)
  | None => []
  end.

(** The non-empty state object a chunk carries, if any. *)
Definition state_delta (c : Chunk) : list json :=
  match custom_delta c with
  | Some cc => if truthy (ccd_state cc) then [ccd_state cc] else []
  | None => []
  end.

Definition stage_delta (c : Chunk) : list StageDelta :=
  match custom_delta c with
  | Some cc => default [] (ccd_stages cc)
  | None => []
  end.

(** All deltas of one kind, in arrival order. *)
Definition content_deltas (chunks : list Chunk) : list string :=
  chunks ≫= content_delta.
Definition attachment_deltas (chunks : list Chunk) : list Attachment :=
  chunks ≫= attachment_delta.
Definition state_deltas (chunks : list Chunk) : list json :=
  chunks ≫= state_delta.
Definition stage_deltas (chunks : list Chunk) : list StageDelta :=
  chunks ≫= stage_delta.

(** The one field of a stage-delta that is applied: the first non-empty one
    in the order name, content, attachments, completed. *)
Inductive Selected :=
  | SelName (fragment : string)
  | SelContent (fragment : string)
  | SelAttachments (batch : list Attachment)
  | SelCompleted
  | SelNothing.

Definition selected (d : StageDelta) : Selected :=
  if truthy_str (sd_name d) then SelName (default "" (sd_name d))
  else if truthy_str (sd_content d) then SelContent (default "" (sd_content d))
  else if truthy_list (sd_attachments d)
       then SelAttachments (default [] (sd_attachments d))
  else if is_completed (sd_status d) then SelCompleted
  else SelNothing.

Definition name_fragment (d : StageDelta) : string :=
  match selected d with SelName s => s | _ => "" end.
Definition content_fragment (d : StageDelta) : string :=
  match selected d with SelContent s => s | _ => "" end.
Definition attachment_batch (d : StageDelta) : list Attachment :=
  match selected d with SelAttachments l => l | _ => [] end.
Definition completes (d : StageDelta) : bool :=
  match selected d with SelCompleted => true | _ => false end.
Definition mutates (d : StageDelta) : bool :=
  match selected d with
  | SelName _ | SelContent _ | SelAttachments _ => true
  | _ => false
  end.

(** A stage already opened, after one more delta for its index. *)
Definition applied (s : Stage) (d : StageDelta) : Stage :=
  {| stage_name := stage_name s +:+ name_fragment d;
     stage_content := stage_content s +:+ content_fragment d;
     stage_attachments := stage_attachments s ++ attachment_batch d;
     stage_closed := stage_closed s || completes d |}.

(** The deltas delivered for one index, in arrival order. *)
Definition deltas_for (idx : Z) (deltas : list StageDelta) : list StageDelta :=
  filter (λ d, sd_index d = idx) deltas.

(** The stage the deltas of one index add up to: the first one opens it
    under its name, every later one contributes its selected field. *)
Definition stage_for (deltas : list StageDelta) : option Stage :=
  match deltas with
  | [] => None
  | first :: later =>
      Some {| stage_name :=
                default "" (sd_name first) +:+ joined (name_fragment <$> later);
              stage_content := joined (content_fragment <$> later);
              stage_attachments := later ≫= attachment_batch;
              stage_closed := existsb completes later |}
  end.

(** No delta mutates a stage after a completion signal for it. *)
Fixpoint orderly (later : list StageDelta) : bool :=
  match later with
  | [] => true
  | d :: rest =>
      if completes d then forallb (λ d', negb (mutates d')) rest
      else orderly rest
  end.

(** A chunk without choices, or whose first choice has a delta. *)
Definition has_delta (c : Chunk) : bool :=
  match choices c with
  | [] => true
  | choice :: _ =>
      match choice_delta choice with Some _ => true | None => false end
  end.

(** The stages map holds, under every index, the stage the deltas seen so
    far for that index add up to. *)
Definition represents (m : gmap Z Stage) (seen : list StageDelta) : Prop :=
  ∀ idx, m !! idx = stage_for (deltas_for idx seen).

(** The accumulators after a run of the chunk loop that did not raise. *)
Record follows (st st' : Reconstruction) (chunks : list Chunk) : Prop := {
  follows_content :
    r_content st' = r_content st +:+ joined (content_deltas chunks);
  follows_attachments :
    cc_attachments (r_custom_content st')
    = (λ l, l ++ attachment_deltas chunks)
        <$> cc_attachments (r_custom_content st);
  follows_state :
    cc_state (r_custom_content st')
    = default (cc_state (r_custom_content st)) (last (state_deltas chunks));
  follows_stages :
    propagate_stages (r_stages_map st) (stage_deltas chunks)
    = Ok (r_stages_map st');
}.

End Spec.
Import Spec.

(** ** Concrete transcripts and calls *)

Module Examples.

Definition calc_tool : Tool :=
  {| endpoint := "http://localhost:8080";
     deployment_name := "calculations-agent";
     name := "calc" |}.

Definition plain (r : Role) (text : string) : Message :=
  {| role := r; content := Some text; custom_content := None;
     tool_call_id := None |}.

Definition with_state (r : Role) (text : string) (st : json) : Message :=
  {| role := r; content := Some text;
     custom_content := Some {| cc_attachments := None; cc_state := st |};
     tool_call_id := None |}.

Definition open_stage_named (label : string) : Stage :=
  StageProcessor.open_stage (Some label).

Definition call (args : gmap string json) (msgs : list Message)
  : ToolCallParams :=
  {| tool_call_id_of := "call_1";
     arguments := args;
     stage := open_stage_named "calc";
     messages := msgs;
     conversation_id := "conv-1";
     api_key := "key" |}.

Definition calc_state : json := JObj {[ "x" := JNum 1 ]}.

(** The spec's scenario: one earlier exchange with "calc", then "continue". *)
Definition scenario_transcript : list Message :=
  [ plain USER "hi";
    with_state ASSISTANT "" (JObj {[ "calc" := calc_state ]}) ].

Definition propagate_args : gmap string json :=
  {[ "prompt" := JStr "continue"; "propagate_history" := JBool true ]}.

Definition one_shot_args : gmap string json :=
  {[ "prompt" := JStr "continue" ]}.

(** State of two callees interleaved. *)
Definition interleaved_transcript : list Message :=
  [ plain USER "q1";
    with_state ASSISTANT "a1"
      (JObj {[ "calc" := calc_state; "search" := JStr "s1" ]});
    plain USER "q2";
    with_state ASSISTANT "a2" (JObj {[ "search" := JStr "s2" ]});
    plain USER "q3" ].

(** The callee's key is present but maps to an empty sub-state. *)
Definition falsy_transcript : list Message :=
  [ plain USER "hi";
    with_state ASSISTANT "" (JObj {[ "calc" := JObj ∅ ]}) ].

(** The transcript opens with an assistant turn holding the callee's state. *)
Definition headless_transcript : list Message :=
  [ with_state ASSISTANT "" (JObj {[ "calc" := calc_state ]});
    plain USER "next" ].

(** A rendering of prompts for the runs below: strings as they are. *)
Definition str_of (v : json) : string :=
  match v with JStr s => s | _ => "" end.

Definition no_stage_delta (idx : Z) : StageDelta :=
  {| sd_index := idx; sd_name := None; sd_content := None;
     sd_attachments := None; sd_status := None |}.

Definition name_delta (idx : Z) (s : string) : StageDelta :=
  {| sd_index := idx; sd_name := Some s; sd_content := None;
     sd_attachments := None; sd_status := None |}.

Definition content_stage_delta (idx : Z) (s : string) : StageDelta :=
  {| sd_index := idx; sd_name := None; sd_content := Some s;
     sd_attachments := None; sd_status := None |}.

Definition completed_delta (idx : Z) : StageDelta :=
  {| sd_index := idx; sd_name := None; sd_content := None;
     sd_attachments := None; sd_status := Some "completed" |}.

Definition chunk_of (d : Delta) : Chunk :=
  {| choices := [ {| choice_delta := Some d |} ] |}.

Definition text_chunk (s : string) : Chunk :=
  chunk_of {| delta_content := Some s; delta_custom_content := None |}.

Definition stages_chunk (stages : list StageDelta) : Chunk :=
  chunk_of {| delta_content := None;
              delta_custom_content :=
                Some {| ccd_attachments := None; ccd_state := JNull;
                        ccd_stages := Some stages |} |}.

Definition state_chunk (st : json) : Chunk :=
  chunk_of {| delta_content := None;
              delta_custom_content :=
                Some {| ccd_attachments := None; ccd_state := st;
                        ccd_stages := None |} |}.

Definition report : Attachment :=
  {| att_type := Some "text/markdown"; att_title := Some "report";
     att_data := Some "# done"; att_url := None;
     att_reference_url := None; att_reference_type := None |}.

Definition attachment_chunk (atts : list Attachment) : Chunk :=
  chunk_of {| delta_content := None;
              delta_custom_content :=
                Some {| ccd_attachments := Some atts; ccd_state := JNull;
                        ccd_stages := None |} |}.

Definition answers (chunks : list Chunk) : Request → ChunkStream :=
  λ _, {| stream_chunks := chunks; stream_end := Exhausted |}.

(** The spec's scenario for the stream. *)
Definition hello_chunks : list Chunk :=
  [ text_chunk "He"; text_chunk "llo";
    stages_chunk [name_delta 0 "Step"];
    stages_chunk [completed_delta 0] ].

(** Content fragments only, the first of them opening the stage. *)
Definition content_first_chunks : list Chunk :=
  [ stages_chunk [content_stage_delta 0 "a"; content_stage_delta 0 "b"] ].

(** A busier stream: text, two states, an attachment, two stages of which
    one is never completed and one is completed twice. *)
Definition busy_chunks : list Chunk :=
  [ text_chunk "4";
    state_chunk (JObj {[ "x" := JNum 1 ]});
    stages_chunk [name_delta 0 "Plan"; name_delta 1 "Run"];
    stages_chunk [name_delta 0 " B"; content_stage_delta 1 "go"];
    attachment_chunk [report];
    stages_chunk [completed_delta 1; completed_delta 1];
    state_chunk (JObj {[ "y" := JNum 2 ]});
    text_chunk "2" ].

Definition one_shot_call : ToolCallParams :=
  call one_shot_args scenario_transcript.

(** The request the one-shot call sends. *)
Definition one_shot_request : Request :=
  {| req_endpoint := "http://localhost:8080";
     req_api_key := "key";
     req_deployment_name := "calculations-agent";
     req_messages :=
       [ prompt_turn (JStr "continue")
           (Some {| cc_attachments := None;
                    cc_state := JObj {[ "calc" := calc_state ]} |}) ];
     req_configuration := ∅;
     req_conversation_id := "conv-1" |}.

(** What the call returns on [busy_chunks]. *)
Definition busy_outcome : Outcome :=
  {| message :=
       {| role := TOOL; content := Some "42";
          custom_content :=
            Some {| cc_attachments := Some [report];
                    cc_state := JObj {[ "y" := JNum 2 ]} |};
          tool_call_id := Some "call_1" |};
     final_stage :=
       {| stage_name := "calc: continue"; stage_content := "42";
          stage_attachments := []; stage_closed := false |};
     final_stages :=
       {[ 0 := {| stage_name := "Plan B"; stage_content := "";
                  stage_attachments := []; stage_closed := true |};
          1 := {| stage_name := "Run"; stage_content := "go";
                  stage_attachments := []; stage_closed := true |} ]};
     choice_attachments := [report] |}.

End Examples.
Import Examples.


(** ** Further vocabulary for the properties of the code beyond the claims *)

Module Reading.

(** [msg_state.get] can be called on the turn's state: the turn is not an
    assistant turn, has no custom content, or its state is falsy or a
    dictionary. *)
Definition state_readable (m : Message) : bool :=
  if decide (role m = ASSISTANT) then
    match custom_content m with
    | Some cc =>
        negb (truthy (cc_state cc))
        || match cc_state cc with JObj _ => true | _ => false end
    | None => true
    end
  else true.

(** ["role"] of an outbound turn. *)
Definition dict_role (turn : json) : option json :=
  match turn with JObj d => d !! "role" | _ => None end.

(** The same call with other arguments, or over another transcript. *)
Definition with_arguments (p : ToolCallParams) (args : gmap string json)
  : ToolCallParams :=
  {| tool_call_id_of := tool_call_id_of p;
     arguments := args;
     stage := stage p;
     messages := messages p;
     conversation_id := conversation_id p;
     api_key := api_key p |}.

Definition with_messages (p : ToolCallParams) (msgs : list Message)
  : ToolCallParams :=
  {| tool_call_id_of := tool_call_id_of p;
     arguments := arguments p;
     stage := stage p;
     messages := msgs;
     conversation_id := conversation_id p;
     api_key := api_key p |}.

(** Whether the call asks for its history to be propagated. *)
Definition propagates (p : ToolCallParams) : bool :=
  truthy (default (JBool false) (arguments p !! "propagate_history")).

(** Every turn after [prev] that holds the callee's sub-state directly
    follows a user turn. *)
Fixpoint follows_user (callee : string) (prev : Message)
    (rest : list Message) : bool :=
  match rest with
  | [] => true
  | m :: rest' =>
      match callee_state callee m with
      | Some _ => bool_decide (role prev = USER)
      | None => true
      end && follows_user callee m rest'
  end.

(** A chunk as the loop reads it: nothing of a chunk without choices, and
    the first choice alone otherwise. *)
Definition first_choice_only (c : Chunk) : list Chunk :=
  match choices c with
  | [] => []
  | choice :: _ => [ {| choices := [choice] |} ]
  end.

Definition normalised (s : ChunkStream) : ChunkStream :=
  {| stream_chunks := stream_chunks s ≫= first_choice_only;
     stream_end := stream_end s |}.

(** The label step 1 appends to the name of the caller's stage. *)
Definition label (py_str : json → string) (p : ToolCallParams) : string :=
  let prompt := default JNull (arguments p !! "prompt") in
  if truthy prompt then ": " +:+ py_str prompt else "".

End Reading.
Import Reading.


(** ** [task/agents/web_search/web_search_app.py] *)

Module WebSearchApp.

Section Application.

(** The MCP client handle, a tool as the MCP server advertises it, the SDK's
    request and what handling a request leaves on the response. *)
Context {Client ToolModel SdkRequest Reply : Type}.

(** The tools this application is built from. *)
Inductive BaseTool :=
  | CalculationsAgentTool (endpoint : string)
  | ContentManagementAgentTool (endpoint : string)
  | MCPTool (client : Client) (mcp_tool_model : ToolModel).

(** The MCP server as the application meets it: connecting, and listing the
    tools over a connection; either may raise. *)
Record McpServer := {
  MCPClient_create : string → result Client;
  get_tools : Client → result (list ToolModel);
}.

(** [task.utils.constants] and the environment. *)
Variables DIAL_ENDPOINT DEPLOYMENT_NAME _DDG_MCP_URL : string.

(** [WebSearchAgent(endpoint, tools).handle_request(...)] *)
Variable handle_request :
  string → list BaseTool → string → SdkRequest → result Reply.

(** The [except] branch prints and raises the same error again. *)
Definition _get_mcp_tools (mcp : McpServer) (url : string)
  : result (list BaseTool) :=
  mcp_client ← MCPClient_create mcp url;
  models ← get_tools mcp mcp_client;
  Ok (MCPTool mcp_client <$> (models : list ToolModel)).

Definition _create_tools (mcp : McpServer) : result (list BaseTool) :=
  mcp_tools ← _get_mcp_tools mcp _DDG_MCP_URL;
  Ok ([ CalculationsAgentTool DIAL_ENDPOINT;
        ContentManagementAgentTool DIAL_ENDPOINT ] ++ mcp_tools).

(** [chat_completion] on an application whose [self.tools] is [tools], run
    to its end with no other request in between: what handling the request
    gives, and [self.tools] afterwards. *)
Definition chat_completion (tools : list BaseTool) (mcp : McpServer)
    (request : SdkRequest) : result Reply * list BaseTool :=
  match (match tools with [] => _create_tools mcp | _ :: _ => Ok tools end) with
  | Ok tools' =>
      (handle_request DIAL_ENDPOINT tools' DEPLOYMENT_NAME request, tools')
  | Raise e => (Raise e, tools)
  end.

End Application.

(** A server that lists two tools, one that cannot be reached, and an agent
    that answers with the number of tools it was given. *)
Definition listing_server : @McpServer string string :=
  {| MCPClient_create := λ url, Ok url;
     get_tools := λ _, Ok ["search"; "fetch_content"] |}.

Definition unreachable_server : @McpServer string string :=
  {| MCPClient_create := λ _, Raise (RuntimeError "connection refused");
     get_tools := λ _, Ok [] |}.

Definition counting_agent (endpoint : string)
    (tools : list (@BaseTool string string)) (deployment : string)
    (request : string) : result nat :=
  Ok (length tools).

End WebSearchApp.

(** ** The History Propagator *)

Module Propagator.

(** *** Concrete runs *)

Example scenario_run :
  _prepare_messages calc_tool (call propagate_args scenario_transcript)
  = Ok [ Message_dict (plain USER "hi");
         Message_dict (with_state ASSISTANT "" calc_state);
         prompt_turn (JStr "continue")
           (Some {| cc_attachments := None;
                    cc_state := JObj {[ "calc" := calc_state ]} |}) ].
Proof. vm_compute. reflexivity. Qed.

Example interleaved_run :
  _prepare_messages calc_tool (call propagate_args interleaved_transcript)
  = Ok [ Message_dict (plain USER "q1");
         Message_dict (with_state ASSISTANT "a1" calc_state);
         prompt_turn (JStr "continue") None ].
Proof. vm_compute. reflexivity. Qed.

Example one_shot_run :
  _prepare_messages calc_tool (call one_shot_args interleaved_transcript)
  = Ok [ prompt_turn (JStr "continue") None ].
Proof. vm_compute. reflexivity. Qed.

Example no_prompt_run :
  _prepare_messages calc_tool (call ∅ scenario_transcript)
  = Raise (KeyError "prompt").
Proof. vm_compute. reflexivity. Qed.

Example empty_transcript_run :
  _prepare_messages calc_tool (call propagate_args []) = Raise IndexError.
Proof. vm_compute. reflexivity. Qed.

Example ill_typed_state_run :
  _prepare_messages calc_tool
    (call propagate_args [plain USER "hi"; with_state ASSISTANT "" (JStr "calc")])
  = Raise AttributeError.
Proof. vm_compute. reflexivity. Qed.

(** Two assistant turns in a row: the turn emitted before the second one is
    the first, with all the state it holds. *)
Example assistant_after_assistant_run :
  _prepare_messages calc_tool
    (call propagate_args
       [ plain USER "q";
         with_state ASSISTANT "a1" (JObj {[ "search" := JStr "s1" ]});
         with_state ASSISTANT "a2" (JObj {[ "calc" := calc_state ]}) ])
  = Ok [ Message_dict
           (with_state ASSISTANT "a1" (JObj {[ "search" := JStr "s1" ]}));
         Message_dict (with_state ASSISTANT "a2" calc_state);
         prompt_turn (JStr "continue")
           (Some {| cc_attachments := None;
                    cc_state := JObj {[ "calc" := calc_state ]} |}) ].
Proof. vm_compute. reflexivity. Qed.

Example falsy_values :
  Forall (λ v, truthy v = false)
    [JObj ∅; JStr ""; JNull; JNum 0; JBool false; JArr []].
Proof. repeat constructor. Qed.

(** *** Python indexing *)

Lemma py_index_nat {A} (l : list A) (i : nat) (x : A) :
  l !! i = Some x → py_index l (Z.of_nat i) = Ok x.
Proof.
  intros Hi. unfold py_index.
  destruct (decide (Z.of_nat i < 0)) as [Hneg|_]; [lia|].
  destruct (decide (0 ≤ Z.of_nat i)) as [_|Hneg]; [|lia].
  by rewrite Nat2Z.id, Hi.
Qed.

Lemma py_index_before {A} (l : list A) (i : nat) (x : A) :
  l !! i = Some x → py_index l (Z.of_nat (S i) - 1) = Ok x.
Proof.
  intros Hi. replace (Z.of_nat (S i) - 1) with (Z.of_nat i) by lia.
  by apply py_index_nat.
Qed.

Lemma py_index_last {A} (l : list A) :
  py_index l (-1) = match last l with Some x => Ok x | None => Raise IndexError end.
Proof.
  unfold py_index. rewrite last_lookup.
  destruct (decide (-1 < 0)) as [_|Hpos]; [|lia].
  destruct l as [|y l]; [done|].
  destruct (decide (0 ≤ -1 + Z.of_nat (length (y :: l)))) as [_|Hneg].
  - replace (Z.to_nat (-1 + Z.of_nat (length (y :: l))))
      with (Nat.pred (length (y :: l))) by (simpl; lia).
    done.
  - simpl in Hneg. lia.
Qed.

(** *** The loop body in the specification's terms *)

Lemma history_turn_mapping callee msgs idx m :
  msgs !! idx = Some m →
  state_is_mapping m = true →
  history_turn callee msgs idx
  = match callee_state callee m with
    | Some sub =>
        prev ← py_index msgs (Z.of_nat idx - 1);
        Ok [Message_dict prev; Message_dict (set_state m sub)]
    | None => Ok []
    end.
Proof.
  intros Hm Hmap. unfold history_turn, callee_state, state_is_mapping in *.
  rewrite (py_index_nat _ _ _ Hm). simpl.
  destruct (decide (role m = ASSISTANT)); [|done].
  destruct (custom_content m) as [cc|]; [|done].
  destruct (cc_state cc) as [| | | | |d] eqn:Hst; try done.
  simpl. case_bool_decide as Hd; simpl.
  - subst d. by rewrite lookup_empty.
  - destruct (d !! callee) as [v|]; simpl; [|done].
    by destruct (truthy v).
Qed.

Lemma history_loop_thread callee rest :
  ∀ pre prev out,
    Forall (λ m, state_is_mapping m = true) rest →
    history_loop callee (pre ++ prev :: rest)
      (seq (S (length pre)) (length rest)) out
    = Ok (out ++ callee_thread callee prev rest).
Proof.
  induction rest as [|m rest IH]; intros pre prev out Hmap; simpl.
  - by rewrite app_nil_r.
  - inversion Hmap as [|? ? Hm Hrest]; subst.
    assert ((pre ++ prev :: m :: rest) !! S (length pre) = Some m) as Hidx.
    { rewrite lookup_app_r by lia.
      by replace (S (length pre) - length pre)%nat with 1%nat by lia. }
    assert ((pre ++ prev :: m :: rest) !! length pre = Some prev) as Hprev.
    { rewrite lookup_app_r by lia. by rewrite Nat.sub_diag. }
    rewrite (history_turn_mapping _ _ _ _ Hidx Hm).
    rewrite (py_index_before _ _ _ Hprev).
    specialize (IH (pre ++ [prev]) m).
    rewrite <- app_assoc in IH. simpl in IH.
    rewrite length_app in IH. simpl in IH.
    rewrite Nat.add_1_r in IH.
    destruct (callee_state callee m) as [sub|]; simpl;
      rewrite IH by done; by rewrite <- app_assoc.
Qed.

(** The whole loop on a transcript whose first turn holds nothing for the
    callee. *)
Lemma history_loop_transcript callee first rest :
  callee_state callee first = None →
  Forall (λ m, state_is_mapping m = true) (first :: rest) →
  history_loop callee (first :: rest) (seq 0 (length (first :: rest))) []
  = Ok (callee_thread callee first rest).
Proof.
  intros Hfirst Hmap. inversion Hmap as [|? ? Hm Hrest]; subst. simpl.
  rewrite (history_turn_mapping callee (first :: rest) 0 first) by done.
  rewrite Hfirst. simpl.
  exact (history_loop_thread callee rest [] first [] Hrest).
Qed.

(** *** When [_prepare_messages] does not raise *)

Lemma py_index_in_range {A} (l : list A) (i : Z) :
  - Z.of_nat (length l) ≤ i < Z.of_nat (length l) →
  ∃ x, py_index l i = Ok x.
Proof.
  intros Hi. unfold py_index.
  destruct (decide (i < 0)).
  - destruct (decide (0 ≤ i + Z.of_nat (length l))); [|lia].
    destruct (lookup_lt_is_Some_2 l (Z.to_nat (i + Z.of_nat (length l))))
      as [x Hx]; [lia|].
    rewrite Hx. eauto.
  - destruct (decide (0 ≤ i)); [|lia].
    destruct (lookup_lt_is_Some_2 l (Z.to_nat i)) as [x Hx]; [lia|].
    rewrite Hx. eauto.
Qed.

Lemma history_turn_returns callee msgs idx :
  Forall (λ m, state_is_mapping m = true) msgs →
  (idx < length msgs)%nat →
  ∃ emitted, history_turn callee msgs idx = Ok emitted.
Proof.
  intros Hmap Hidx.
  destruct (lookup_lt_is_Some_2 msgs idx Hidx) as [m Hm].
  rewrite (history_turn_mapping _ _ _ _ Hm).
  2:{ rewrite Forall_forall in Hmap. apply Hmap.
      by apply list_elem_of_lookup_2 in Hm. }
  destruct (callee_state callee m); [|eauto].
  destruct (py_index_in_range msgs (Z.of_nat idx - 1)) as [prev ->]; [lia|].
  simpl. eauto.
Qed.

Lemma history_loop_returns callee msgs idxs :
  Forall (λ m, state_is_mapping m = true) msgs →
  Forall (λ idx, idx < length msgs)%nat idxs →
  ∀ out, ∃ out', history_loop callee msgs idxs out = Ok out'.
Proof.
  intros Hmap. induction 1 as [|idx idxs Hidx _ IH]; intros out; simpl.
  - eauto.
  - destruct (history_turn_returns callee msgs idx Hmap Hidx) as [e ->].
    simpl. apply IH.
Qed.

(** The propagator returns a list whenever the prompt is given, the
    transcript is not empty and assistant states are mappings. *)
Lemma _prepare_messages_returns self p prompt :
  arguments p !! "prompt" = Some prompt →
  messages p ≠ [] →
  Forall (λ m, state_is_mapping m = true) (messages p) →
  ∃ out, _prepare_messages self p = Ok out.
Proof.
  intros Hprompt Hne Hmap. unfold _prepare_messages, py_getitem.
  rewrite Hprompt. simpl. rewrite py_index_last.
  destruct (last (messages p)) as [last_msg|] eqn:Hlast.
  2:{ by apply last_None in Hlast. }
  destruct (truthy _); simpl; [|eauto].
  destruct (history_loop_returns (name self) (messages p)
              (seq 0 (length (messages p))) Hmap) with (out := @nil json)
    as [out ->].
  { apply Forall_forall. intros idx Hin. apply elem_of_seq in Hin. lia. }
  simpl. eauto.
Qed.

(** A narrowed copy, as a dictionary, holds the sub-state and nothing else
    under ["custom_content"]["state"]. *)
Lemma narrowed_copy_state callee m sub :
  callee_state callee m = Some sub →
  ∃ d dcc,
    Message_dict (set_state m sub) = JObj d ∧
    d !! "custom_content" = Some (JObj dcc) ∧
    dcc !! "state" = Some sub.
Proof.
  unfold callee_state. intros Hsub.
  destruct (decide (role m = ASSISTANT)); [|done].
  destruct (custom_content m) as [cc|] eqn:Hcc; [|done].
  destruct (cc_state cc) as [| | | | |st]; try done.
  destruct (st !! callee) as [v|]; [|done].
  destruct (truthy v) eqn:Hv; [|done].
  injection Hsub as <-.
  unfold Message_dict, set_state. simpl. rewrite Hcc. simpl.
  eexists _, _. split; [reflexivity|]. split.
  - destruct (content m); simpl.
    + rewrite lookup_insert_ne by done. rewrite lookup_insert_ne by done.
      by rewrite lookup_insert_eq.
    + rewrite lookup_insert_ne by done. by rewrite lookup_insert_eq.
  - simpl. assert (not_none v = Some v) as -> by (by destruct v).
    destruct (cc_attachments cc); simpl.
    + rewrite lookup_insert_ne by done. by rewrite lookup_insert_eq.
    + by rewrite lookup_insert_eq.
Qed.

(** *** Roles of the outbound turns *)

Lemma dict_role_Message_dict m :
  dict_role (Message_dict m) = Some (JStr (Role_value (role m))).
Proof. unfold dict_role, Message_dict. simpl. by rewrite lookup_insert_eq. Qed.

Lemma dict_role_prompt_turn prompt cc :
  dict_role (prompt_turn prompt cc) = Some (JStr "user").
Proof. unfold dict_role, prompt_turn. by rewrite lookup_insert_eq. Qed.

Lemma callee_state_assistant callee m sub :
  callee_state callee m = Some sub → role m = ASSISTANT.
Proof. unfold callee_state. by destruct (decide (role m = ASSISTANT)). Qed.

(** Where every turn that holds the callee's sub-state follows a user turn,
    the assistant turns of the thread are the narrowed copies. *)
Lemma callee_thread_isolated callee rest :
  ∀ prev,
    follows_user callee prev rest = true →
    ∀ turn,
      turn ∈ callee_thread callee prev rest →
      dict_role turn = Some (JStr "assistant") →
      ∃ m sub,
        m ∈ rest ∧ callee_state callee m = Some sub ∧
        turn = Message_dict (set_state m sub).
Proof.
  induction rest as [|m rest IH]; intros prev Hfollows turn Hin Hrole.
  - by apply elem_of_nil in Hin.
  - simpl in Hfollows. apply andb_true_iff in Hfollows as [Hprev Hrest].
    cbn [callee_thread] in Hin. apply elem_of_app in Hin as [Hin|Hin].
    + destruct (callee_state callee m) as [sub|] eqn:Hsub;
        [|by apply elem_of_nil in Hin].
      apply bool_decide_eq_true in Hprev.
      apply elem_of_cons in Hin as [->|Hin].
      { by rewrite dict_role_Message_dict, Hprev in Hrole. }
      apply list_elem_of_singleton in Hin as ->.
      exists m, sub. split; [left|done].
    + destruct (IH m Hrest turn Hin Hrole) as (m' & sub & Hm' & Hsub & ->).
      exists m', sub. split; [by right|done].
Qed.

(** *** The claims *)

(** C1, as amended.  History isolation: when [propagate_history] is truthy,
    every assistant turn's state is a mapping and every turn that holds a
    truthy sub-state for the callee directly follows a user turn, the
    outbound list is, in transcript order and for each assistant turn whose
    state maps the callee's identity to a truthy value, the turn before it
    unmodified followed by a copy of the assistant turn whose state is that
    sub-state only, and then the new user turn; and no assistant turn in the
    outbound list carries another callee's state: every assistant turn in it
    is such a copy, with the callee's sub-state as its
    ["custom_content"]["state"]. *)
Theorem history_isolation self p prompt first rest :
  arguments p !! "prompt" = Some prompt →
  truthy (default (JBool false) (arguments p !! "propagate_history")) = true →
  messages p = first :: rest →
  callee_state (name self) first = None →
  follows_user (name self) first rest = true →
  Forall (λ m, state_is_mapping m = true) (messages p) →
  ∃ last_msg out,
    last (messages p) = Some last_msg ∧
    out = callee_thread (name self) first rest
          ++ [prompt_turn prompt (custom_content last_msg)] ∧
    _prepare_messages self p = Ok out ∧
    ∀ turn,
      turn ∈ out →
      dict_role turn = Some (JStr "assistant") →
      ∃ m sub d dcc,
        m ∈ rest ∧
        callee_state (name self) m = Some sub ∧
        turn = Message_dict (set_state m sub) ∧
        turn = JObj d ∧
        d !! "custom_content" = Some (JObj dcc) ∧
        dcc !! "state" = Some sub.
Proof.
  intros Hprompt Hprop Hmsgs Hfirst Hfollows Hmap.
  destruct (last (messages p)) as [last_msg|] eqn:Hlast.
  2:{ rewrite Hmsgs in Hlast. by apply last_None in Hlast. }
  exists last_msg. eexists. split; [done|]. split; [reflexivity|]. split.
  - unfold _prepare_messages, py_getitem. rewrite Hprompt, Hprop. simpl.
    rewrite py_index_last, Hlast. rewrite Hmsgs in *.
    by rewrite (history_loop_transcript _ _ _ Hfirst Hmap).
  - intros turn Hin Hrole. apply elem_of_app in Hin as [Hin|Hin].
    + destruct (callee_thread_isolated _ _ _ Hfollows _ Hin Hrole)
        as (m & sub & Hm & Hsub & ->).
      destruct (narrowed_copy_state _ _ _ Hsub) as (d & dcc & Hd & Hcc & Hst).
      by exists m, sub, d, dcc.
    + apply list_elem_of_singleton in Hin as ->.
      by rewrite dict_role_prompt_turn in Hrole.
Qed.

Lemma history_isolation_witness :
  ∃ last_msg out,
    last interleaved_transcript = Some last_msg ∧
    out = callee_thread "calc" (plain USER "q1") (tail interleaved_transcript)
          ++ [prompt_turn (JStr "continue") (custom_content last_msg)] ∧
    _prepare_messages calc_tool (call propagate_args interleaved_transcript)
    = Ok out ∧
    ∀ turn,
      turn ∈ out →
      dict_role turn = Some (JStr "assistant") →
      ∃ m sub d dcc,
        m ∈ tail interleaved_transcript ∧
        callee_state "calc" m = Some sub ∧
        turn = Message_dict (set_state m sub) ∧
        turn = JObj d ∧
        d !! "custom_content" = Some (JObj dcc) ∧
        dcc !! "state" = Some sub.
Proof.
  apply (history_isolation calc_tool
           (call propagate_args interleaved_transcript) (JStr "continue")
           (plain USER "q1") (tail interleaved_transcript)).
  - vm_compute. reflexivity.
  - vm_compute. reflexivity.
  - reflexivity.
  - reflexivity.
  - vm_compute. reflexivity.
  - repeat constructor.
Defined.

(** C1, as stated, fails: the second turn of [falsy_transcript] is an
    assistant turn whose state has an entry keyed ["calc"], yet the outbound
    list is the new user turn alone: it holds no pair of a preceding turn and
    a copy. *)
Lemma history_isolation_fails_on_falsy_entry :
  (∃ a cc d,
     falsy_transcript !! 1%nat = Some a ∧ role a = ASSISTANT ∧
     custom_content a = Some cc ∧ cc_state cc = JObj d ∧
     is_Some (d !! name calc_tool)) ∧
  _prepare_messages calc_tool (call propagate_args falsy_transcript)
  = Ok [ prompt_turn (JStr "continue")
           (Some {| cc_attachments := None;
                    cc_state := JObj {[ "calc" := JObj ∅ ]} |}) ] ∧
  ∀ pre prev copy post,
    [ prompt_turn (JStr "continue")
        (Some {| cc_attachments := None;
                 cc_state := JObj {[ "calc" := JObj ∅ ]} |}) ]
    ≠ pre ++ [prev; copy] ++ post.
Proof.
  split; [|split].
  - eexists _, _, _. repeat split; try reflexivity.
    simpl. by eexists.
  - vm_compute. reflexivity.
  - intros pre prev copy post Heq. apply (f_equal length) in Heq.
    rewrite !length_app in Heq. simpl in Heq. lia.
Qed.

(** C2.  One-shot mode: for a transcript with at least one turn, when
    [propagate_history] is absent or false the outbound list is exactly one
    turn, with role user, content the prompt argument, and the custom
    content of the last transcript turn when it has one. *)
Theorem one_shot_mode self p prompt last_msg :
  arguments p !! "prompt" = Some prompt →
  arguments p !! "propagate_history" = None
    ∨ arguments p !! "propagate_history" = Some (JBool false) →
  last (messages p) = Some last_msg →
  _prepare_messages self p
  = Ok [ JObj {[ "role" := JStr "user";
                 "content" := prompt;
                 "custom_content" :=
                   match custom_content last_msg with
                   | Some c => CustomContent_dict c
                   | None => JNull
                   end ]} ].
Proof.
  intros Hprompt Hprop Hlast.
  unfold _prepare_messages, py_getitem. rewrite Hprompt. simpl.
  rewrite py_index_last, Hlast.
  by destruct Hprop as [-> | ->].
Qed.

Lemma one_shot_mode_witness :
  _prepare_messages calc_tool (call one_shot_args scenario_transcript)
  = Ok [ JObj {[ "role" := JStr "user";
                 "content" := JStr "continue";
                 "custom_content" :=
                   CustomContent_dict
                     {| cc_attachments := None;
                        cc_state := JObj {[ "calc" := calc_state ]} |} ]} ].
Proof.
  apply (one_shot_mode calc_tool (call one_shot_args scenario_transcript)
           (JStr "continue")
           (with_state ASSISTANT "" (JObj {[ "calc" := calc_state ]}))).
  - vm_compute. reflexivity.
  - left. vm_compute. reflexivity.
  - reflexivity.
Defined.

(** C3.  The code has no guard for a matched assistant turn at index 0:
    [messages[idx - 1]] is [messages[-1]], so the turn emitted as the one
    "before" the assistant turn is the last turn of the transcript, and no
    error is raised. *)
Theorem index0_wraps_around :
  _prepare_messages calc_tool (call propagate_args headless_transcript)
  = Ok [ Message_dict (plain USER "next");
         Message_dict (with_state ASSISTANT "" calc_state);
         prompt_turn (JStr "continue") None ].
Proof. vm_compute. reflexivity. Qed.

(** C9.  Under [propagate_history], whenever an outbound list is built its
    last turn is the new user turn: content the prompt, custom content that
    of the transcript's current last turn, whatever the earlier turns
    hold. *)
Theorem final_turn_is_current self p out :
  truthy (default (JBool false) (arguments p !! "propagate_history")) = true →
  _prepare_messages self p = Ok out →
  ∃ prompt last_msg,
    arguments p !! "prompt" = Some prompt ∧
    last (messages p) = Some last_msg ∧
    last out
    = Some (JObj {[ "role" := JStr "user";
                    "content" := prompt;
                    "custom_content" :=
                      match custom_content last_msg with
                      | Some c => CustomContent_dict c
                      | None => JNull
                      end ]}).
Proof.
  intros Hprop. unfold _prepare_messages, py_getitem. rewrite Hprop.
  destruct (arguments p !! "prompt") as [prompt|]; [|done]. simpl.
  destruct (history_loop _ _ _ _) as [hist|]; [|done]. simpl.
  rewrite py_index_last.
  destruct (last (messages p)) as [last_msg|]; [|done]. simpl.
  intros [= <-]. exists prompt, last_msg.
  split; [done|]. split; [done|]. by rewrite last_snoc.
Qed.

Lemma final_turn_is_current_witness :
  ∃ prompt last_msg,
    arguments (call propagate_args interleaved_transcript) !! "prompt"
    = Some prompt ∧
    last interleaved_transcript = Some last_msg ∧
    last [ Message_dict (plain USER "q1");
           Message_dict (with_state ASSISTANT "a1" calc_state);
           prompt_turn (JStr "continue") None ]
    = Some (JObj {[ "role" := JStr "user";
                    "content" := prompt;
                    "custom_content" :=
                      match custom_content last_msg with
                      | Some c => CustomContent_dict c
                      | None => JNull
                      end ]}).
Proof.
  apply (final_turn_is_current calc_tool
           (call propagate_args interleaved_transcript)).
  - vm_compute. reflexivity.
  - vm_compute. reflexivity.
Defined.

(** C10.  A falsy sub-state is skipped: for an assistant turn whose state
    maps the callee's identity to a falsy value, the loop body appends
    nothing for that position (neither the turn nor the one before it), so
    the position leaves the list built so far as it is. *)
Theorem falsy_sub_state_skipped callee msgs idx a cc d v :
  msgs !! idx = Some a →
  role a = ASSISTANT →
  custom_content a = Some cc →
  cc_state cc = JObj d →
  d !! callee = Some v →
  truthy v = false →
  history_turn callee msgs idx = Ok [] ∧
  ∀ rest out,
    history_loop callee msgs (idx :: rest) out
    = history_loop callee msgs rest out.
Proof.
  intros Ha Hrole Hcc Hst Hv Hfalsy.
  assert (history_turn callee msgs idx = Ok []) as Hturn.
  { unfold history_turn. rewrite (py_index_nat _ _ _ Ha). simpl.
    rewrite Hrole, Hcc, Hst. simpl.
    destruct (decide (ASSISTANT = ASSISTANT)); [|done].
    case_bool_decide; simpl; [done|].
    by rewrite Hv; simpl; rewrite Hfalsy. }
  split; [done|].
  intros rest out. simpl. rewrite Hturn. simpl. by rewrite app_nil_r.
Qed.

Lemma falsy_sub_state_skipped_witness :
  history_turn "calc" falsy_transcript 1 = Ok [] ∧
  ∀ rest out,
    history_loop "calc" falsy_transcript (1%nat :: rest) out
    = history_loop "calc" falsy_transcript rest out.
Proof.
  apply (falsy_sub_state_skipped "calc" falsy_transcript 1
           (with_state ASSISTANT "" (JObj {[ "calc" := JObj ∅ ]}))
           {| cc_attachments := None;
              cc_state := JObj {[ "calc" := JObj ∅ ]} |}
           {[ "calc" := JObj ∅ ]} (JObj ∅)).
  - reflexivity.
  - reflexivity.
  - reflexivity.
  - reflexivity.
  - vm_compute. reflexivity.
  - vm_compute. reflexivity.
Defined.

End Propagator.

(** ** The Stream Reconstructor and the Invocation Orchestrator *)

Module Reconstructor.

(** *** Concrete runs *)

Example hello_run :
  _execute str_of (answers hello_chunks) calc_tool
    (call one_shot_args scenario_transcript)
  = Ok {| message :=
            {| role := TOOL; content := Some "Hello";
               custom_content :=
                 Some {| cc_attachments := Some []; cc_state := JNull |};
               tool_call_id := Some "call_1" |};
          final_stage :=
            {| stage_name := "calc: continue"; stage_content := "Hello";
               stage_attachments := []; stage_closed := false |};
          final_stages :=
            {[ 0 := {| stage_name := "Step"; stage_content := "";
                       stage_attachments := []; stage_closed := true |} ]};
          choice_attachments := [] |}.
Proof. vm_compute. reflexivity. Qed.

Example busy_run :
  _execute str_of (answers busy_chunks) calc_tool one_shot_call
  = Ok busy_outcome.
Proof. vm_compute. reflexivity. Qed.

Example one_shot_request_sent :
  request str_of calc_tool one_shot_call = Ok one_shot_request.
Proof. vm_compute. reflexivity. Qed.

Example mutation_after_close_run :
  _execute str_of
    (answers [ stages_chunk [name_delta 0 "Step"; completed_delta 0;
                             content_stage_delta 0 "late"] ])
    calc_tool (call one_shot_args scenario_transcript)
  = Raise (RuntimeError "Trying to append content to a closed stage").
Proof. vm_compute. reflexivity. Qed.

Example broken_stream_run :
  _execute str_of
    (λ _, {| stream_chunks := hello_chunks; stream_end := Failed |})
    calc_tool (call one_shot_args scenario_transcript)
  = Raise TransportError.
Proof. vm_compute. reflexivity. Qed.

(** *** Strings *)

Lemma string_app_nil_r (s : string) : s +:+ "" = s.
Proof.
  induction s as [|c s IH]; [done|].
  change (String c (s +:+ "") = String c s). by rewrite IH.
Qed.

Lemma string_app_assoc (s1 s2 s3 : string) :
  s1 +:+ s2 +:+ s3 = (s1 +:+ s2) +:+ s3.
Proof.
  induction s1 as [|c s1 IH]; [done|].
  change (String c (s1 +:+ s2 +:+ s3) = String c ((s1 +:+ s2) +:+ s3)).
  by rewrite IH.
Qed.

Lemma joined_app (l1 l2 : list string) :
  joined (l1 ++ l2) = joined l1 +:+ joined l2.
Proof.
  induction l1 as [|x l1 IH]; [done|].
  change (x +:+ joined (l1 ++ l2) = (x +:+ joined l1) +:+ joined l2).
  by rewrite IH, string_app_assoc.
Qed.

Lemma joined_snoc (l : list string) (x : string) :
  joined (l ++ [x]) = joined l +:+ x.
Proof.
  rewrite joined_app. unfold joined at 2. simpl.
  by rewrite string_app_nil_r.
Qed.

(** *** The stage loop *)

Lemma propagate_stages_app m l1 l2 :
  propagate_stages m (l1 ++ l2)
  = m' ← propagate_stages m l1; propagate_stages m' l2.
Proof.
  revert m. induction l1 as [|d l1 IH]; intros m; [done|]. simpl.
  destruct (propagate_stage m d); simpl; [apply IH|done].
Qed.

Lemma propagate_stages_snoc_inv m l d m' :
  propagate_stages m (l ++ [d]) = Ok m' →
  ∃ m0, propagate_stages m l = Ok m0 ∧ propagate_stage m0 d = Ok m'.
Proof.
  rewrite propagate_stages_app.
  destruct (propagate_stages m l) as [m0|]; simpl; [|done].
  destruct (propagate_stage m0 d) as [m1|] eqn:Hd; simpl; [|done].
  intros [= <-]. eauto.
Qed.

Lemma add_attachments_open s atts :
  stage_closed s = false →
  add_attachments s atts
  = Ok {| stage_name := stage_name s;
          stage_content := stage_content s;
          stage_attachments := stage_attachments s ++ atts;
          stage_closed := false |}.
Proof.
  revert s. induction atts as [|a atts IH]; intros s Hopen; simpl.
  - rewrite app_nil_r. destruct s; simpl in *; by subst.
  - unfold add_attachment. rewrite Hopen. simpl.
    rewrite IH by done. simpl. by rewrite <- app_assoc.
Qed.

Lemma add_attachments_closed s a atts :
  stage_closed s = true →
  ∃ e, add_attachments s (a :: atts) = Raise e.
Proof.
  intros Hclosed. simpl. unfold add_attachment. rewrite Hclosed.
  simpl. eauto.
Qed.

Lemma stage_eta (s : Stage) :
  s = {| stage_name := stage_name s; stage_content := stage_content s;
         stage_attachments := stage_attachments s;
         stage_closed := stage_closed s |}.
Proof. by destruct s. Qed.

Lemma propagate_stage_seen m d s :
  m !! sd_index d = Some s →
  propagate_stage m d
  = if mutates d && stage_closed s
    then propagate_stage m d
    else Ok (<[sd_index d := applied s d]> m).
Proof.
  intros Hs.
  destruct (mutates d && stage_closed s) eqn:Hmc; [done|].
  unfold propagate_stage, applied, mutates, name_fragment,
    content_fragment, attachment_batch, completes, selected in *.
  rewrite Hs.
  destruct (truthy_str (sd_name d)); simpl in *.
  { unfold append_name. rewrite Hmc. simpl.
    by rewrite string_app_nil_r, app_nil_r. }
  destruct (truthy_str (sd_content d)); simpl in *.
  { unfold append_content. rewrite Hmc. simpl.
    by rewrite string_app_nil_r, app_nil_r. }
  destruct (truthy_list (sd_attachments d)); simpl in *.
  { rewrite add_attachments_open by done. simpl.
    by rewrite Hmc, !string_app_nil_r. }
  destruct (is_completed (sd_status d)); simpl;
    rewrite !string_app_nil_r, app_nil_r.
  - unfold StageProcessor.close_stage_safely.
    destruct (stage_closed s) eqn:Hc; simpl; [|done].
    by rewrite <- Hc, <- stage_eta.
  - rewrite orb_false_r, <- stage_eta. by rewrite insert_id.
Qed.

Lemma propagate_stage_closed_mutation m d s :
  m !! sd_index d = Some s →
  mutates d = true → stage_closed s = true →
  ∃ e, propagate_stage m d = Raise e.
Proof.
  intros Hs Hmut Hclosed.
  unfold propagate_stage, mutates, selected in *. rewrite Hs.
  destruct (truthy_str (sd_name d)).
  { unfold append_name. rewrite Hclosed. simpl. eauto. }
  destruct (truthy_str (sd_content d)).
  { unfold append_content. rewrite Hclosed. simpl. eauto. }
  destruct (truthy_list (sd_attachments d)) eqn:Hatt.
  { destruct (sd_attachments d) as [[|a atts]|]; try done. simpl.
    unfold add_attachment. rewrite Hclosed. simpl. eauto. }
  by destruct (is_completed (sd_status d)).
Qed.

(** *** The stages map follows the deltas seen so far *)

Lemma stage_for_snoc first later d :
  stage_for ((first :: later) ++ [d])
  = (λ s, applied s d) <$> stage_for (first :: later).
Proof.
  simpl. unfold applied. simpl. f_equal.
  rewrite !fmap_app, bind_app, existsb_app. simpl.
  by rewrite !joined_snoc, string_app_assoc, app_nil_r, orb_false_r.
Qed.

Lemma stage_for_singleton d :
  stage_for [d] = Some (StageProcessor.open_stage (sd_name d)).
Proof.
  simpl. unfold StageProcessor.open_stage, joined. simpl.
  by rewrite string_app_nil_r.
Qed.

Lemma deltas_for_snoc idx seen d :
  deltas_for idx (seen ++ [d])
  = deltas_for idx seen ++ (if decide (sd_index d = idx) then [d] else []).
Proof.
  unfold deltas_for. by rewrite filter_app.
Qed.

Lemma stage_for_None l : stage_for l = None → l = [].
Proof. by destruct l. Qed.

Lemma represents_empty : represents ∅ [].
Proof. intros idx. by rewrite lookup_empty. Qed.

Lemma represents_step m seen d m' :
  represents m seen →
  propagate_stage m d = Ok m' →
  represents m' (seen ++ [d]).
Proof.
  intros Hrep Hd idx. rewrite deltas_for_snoc.
  destruct (m !! sd_index d) as [s|] eqn:Hs.
  - rewrite (propagate_stage_seen _ _ _ Hs) in Hd.
    destruct (mutates d && stage_closed s) eqn:Hmc.
    { apply andb_true_iff in Hmc as [Hmut Hclosed].
      destruct (propagate_stage_closed_mutation _ _ _ Hs Hmut Hclosed)
        as [e He]. congruence. }
    injection Hd as <-.
    destruct (decide (sd_index d = idx)) as [<-|Hne].
    + rewrite lookup_insert_eq.
      pose proof (Hrep (sd_index d)) as Hidx. rewrite Hs in Hidx.
      destruct (deltas_for (sd_index d) seen) as [|first later]; [done|].
      by rewrite stage_for_snoc, <- Hidx.
    + rewrite lookup_insert_ne by done. by rewrite app_nil_r.
  - unfold propagate_stage in Hd. rewrite Hs in Hd. injection Hd as <-.
    destruct (decide (sd_index d = idx)) as [<-|Hne].
    + rewrite lookup_insert_eq.
      pose proof (Hrep (sd_index d)) as Hidx. rewrite Hs in Hidx.
      symmetry in Hidx. apply stage_for_None in Hidx.
      by rewrite Hidx, app_nil_l, stage_for_singleton.
    + rewrite lookup_insert_ne by done. by rewrite app_nil_r.
Qed.

Lemma propagate_stages_represents deltas :
  ∀ m, propagate_stages ∅ deltas = Ok m → represents m deltas.
Proof.
  induction deltas as [|d deltas IH] using rev_ind; intros m Hrun.
  - injection Hrun as <-. apply represents_empty.
  - apply propagate_stages_snoc_inv in Hrun as (m0 & Hrun & Hd).
    eapply represents_step; eauto.
Qed.

(** *** When the stage loop does not raise *)

Lemma orderly_app_l l1 l2 : orderly (l1 ++ l2) = true → orderly l1 = true.
Proof.
  induction l1 as [|d l1 IH]; [done|]. simpl.
  destruct (completes d); [|done].
  rewrite forallb_app. by intros [? ?]%andb_true_iff.
Qed.

Lemma orderly_snoc_mutates later d :
  orderly (later ++ [d]) = true →
  mutates d = true →
  existsb completes later = false.
Proof.
  induction later as [|d' later IH]; [done|]. simpl.
  destruct (completes d'); simpl; [|done].
  rewrite forallb_app. simpl. intros Hall Hmut. rewrite Hmut in Hall.
  simpl in Hall. by rewrite andb_false_r in Hall.
Qed.

Lemma propagate_stages_orderly deltas :
  (∀ idx, orderly (tail (deltas_for idx deltas)) = true) →
  ∃ m, propagate_stages ∅ deltas = Ok m.
Proof.
  induction deltas as [|d deltas IH] using rev_ind; intros Hord.
  - by exists ∅.
  - destruct IH as [m0 Hrun].
    { intros idx. specialize (Hord idx). rewrite deltas_for_snoc in Hord.
      destruct (deltas_for idx deltas) as [|first later]; [done|].
      simpl in *. by apply orderly_app_l in Hord. }
    rewrite propagate_stages_app, Hrun. simpl.
    pose proof (propagate_stages_represents _ _ Hrun (sd_index d)) as Hidx.
    specialize (Hord (sd_index d)). rewrite deltas_for_snoc in Hord.
    destruct (decide (sd_index d = sd_index d)) as [_|]; [|done].
    destruct (propagate_stage m0 d) as [m|err] eqn:Hd; [eauto|].
    exfalso.
    destruct (m0 !! sd_index d) as [s|] eqn:Hs.
    + rewrite (propagate_stage_seen _ _ _ Hs) in Hd.
      destruct (mutates d && stage_closed s) eqn:Hmc; [|done].
      apply andb_true_iff in Hmc as [Hmut Hclosed].
      destruct (deltas_for (sd_index d) deltas) as [|first later]; [done|].
      simpl in Hord, Hidx. injection Hidx as ->. simpl in Hclosed.
      by rewrite (orderly_snoc_mutates _ _ Hord Hmut) in Hclosed.
    + unfold propagate_stage in Hd. by rewrite Hs in Hd.
Qed.

(** *** The chunk loop *)

Lemma fmap_app_nil {A} (o : option (list A)) : (λ l, l ++ []) <$> o = o.
Proof. destruct o; simpl; [by rewrite app_nil_r|done]. Qed.

Lemma bind_singleton {A B} (f : A → list B) (x : A) : [x] ≫= f = f x.
Proof. simpl. apply app_nil_r. Qed.

Lemma truthy_list_default {A} (o : option (list A)) :
  truthy_list o = false → default [] o = [].
Proof. by destruct o as [[|? ?]|]. Qed.

Lemma mirror_content_inv st delta st1 :
  mirror_content st delta = Ok st1 →
  r_content st1
  = r_content st +:+ (if truthy_str (delta_content delta)
                      then default "" (delta_content delta) else "") ∧
  r_custom_content st1 = r_custom_content st ∧
  r_stages_map st1 = r_stages_map st.
Proof.
  unfold mirror_content.
  destruct (truthy_str (delta_content delta)).
  - destruct (append_content _ _) as [stage'|]; [|done]. simpl.
    by intros [= <-].
  - intros [= <-]. by rewrite string_app_nil_r.
Qed.

Lemma collect_custom_content_inv st cc st' :
  collect_custom_content st cc = Ok st' →
  r_content st' = r_content st ∧
  cc_attachments (r_custom_content st')
  = (λ l, l ++ default [] (ccd_attachments cc))
      <$> cc_attachments (r_custom_content st) ∧
  cc_state (r_custom_content st')
  = (if truthy (ccd_state cc) then ccd_state cc
     else cc_state (r_custom_content st)) ∧
  propagate_stages (r_stages_map st) (default [] (ccd_stages cc))
  = Ok (r_stages_map st').
Proof.
  unfold collect_custom_content.
  assert (propagate_stages (r_stages_map st) (default [] (ccd_stages cc))
          = (if truthy_list (ccd_stages cc)
             then propagate_stages (r_stages_map st)
                    (default [] (ccd_stages cc))
             else Ok (r_stages_map st))) as <-.
  { destruct (truthy_list (ccd_stages cc)) eqn:Hstages; [done|].
    by rewrite truthy_list_default. }
  destruct (propagate_stages _ _) as [m|]; [|done]. simpl.
  intros [= <-]. simpl. repeat split.
  destruct (truthy_list (ccd_attachments cc)) eqn:Hatts; [done|].
  by rewrite truthy_list_default, fmap_app_nil.
Qed.

Lemma consume_chunk_follows st c st' :
  consume_chunk st c = Ok st' → follows st st' [c].
Proof.
  unfold consume_chunk. intros Hc.
  split; unfold content_deltas, attachment_deltas, state_deltas, stage_deltas;
    rewrite bind_singleton;
    unfold content_delta, attachment_delta, state_delta, stage_delta,
      custom_delta, first_delta;
    (destruct (choices c) as [|choice ?];
     [injection Hc as <-; simpl;
      by rewrite ?string_app_nil_r, ?fmap_app_nil|]);
    (destruct (choice_delta choice) as [delta|]; [|done]);
    (destruct (mirror_content st delta) as [st1|] eqn:Hmirror; [|done]);
    apply mirror_content_inv in Hmirror as (Hcontent & Hcustom & Hstages);
    simpl in *;
    (destruct (delta_custom_content delta) as [cc|];
     [apply collect_custom_content_inv in Hc as (Hc1 & Hc2 & Hc3 & Hc4)
     |injection Hc as <-]); simpl.
  - rewrite Hc1, Hcontent.
    destruct (truthy_str (delta_content delta)); [|done].
    unfold joined. simpl. by rewrite string_app_nil_r.
  - rewrite Hcontent.
    destruct (truthy_str (delta_content delta)); [|done].
    unfold joined. simpl. by rewrite string_app_nil_r.
  - by rewrite Hc2, Hcustom.
  - by rewrite Hcustom, fmap_app_nil.
  - rewrite Hc3, Hcustom. by destruct (truthy (ccd_state cc)).
  - by rewrite Hcustom.
  - by rewrite <- Hstages.
  - by rewrite Hstages.
Qed.

Lemma follows_refl st : follows st st [].
Proof.
  split; simpl; [by rewrite string_app_nil_r|by rewrite fmap_app_nil|done..].
Qed.

Lemma follows_trans st st1 st2 chunks1 chunks2 :
  follows st st1 chunks1 → follows st1 st2 chunks2 →
  follows st st2 (chunks1 ++ chunks2).
Proof.
  intros [Hc1 Ha1 Hs1 Hm1] [Hc2 Ha2 Hs2 Hm2]. split.
  - unfold content_deltas in *.
    by rewrite Hc2, Hc1, bind_app, joined_app, string_app_assoc.
  - unfold attachment_deltas in *. rewrite Ha2, Ha1, bind_app.
    destruct (cc_attachments (r_custom_content st)); simpl; [|done].
    by rewrite app_assoc.
  - unfold state_deltas in *. rewrite Hs2, Hs1, bind_app, last_app.
    by destruct (last (chunks2 ≫= state_delta)).
  - unfold stage_deltas in *.
    by rewrite bind_app, propagate_stages_app, Hm1.
Qed.

Lemma consume_chunks_follows chunks :
  ∀ st st', consume_chunks st chunks = Ok st' → follows st st' chunks.
Proof.
  induction chunks as [|c chunks IH]; intros st st' Hrun; simpl in Hrun.
  - injection Hrun as <-. apply follows_refl.
  - destruct (consume_chunk st c) as [st1|] eqn:Hc; [|done].
    apply (follows_trans st st1 st' [c] chunks).
    + by apply consume_chunk_follows.
    + by apply IH.
Qed.

(** *** What a normal return of [_execute] went through *)

Lemma _execute_inv py_str send self p o :
  _execute py_str send self p = Ok o →
  ∃ req stage1 st,
    request py_str self p = Ok req ∧
    stream_end (send req) = Exhausted ∧
    consume_chunks (fresh stage1) (stream_chunks (send req)) = Ok st ∧
    o = {| message :=
             {| role := TOOL;
                content := Some (r_content st);
                custom_content := Some (r_custom_content st);
                tool_call_id := Some (tool_call_id_of p) |};
           final_stage := r_stage st;
           final_stages :=
             StageProcessor.close_stage_safely <$> r_stages_map st;
           choice_attachments :=
             default [] (cc_attachments (r_custom_content st)) |}.
Proof.
  unfold _execute, request.
  destruct (label_stage py_str p) as [[stage1 forwarded]|]; [|done]. simpl.
  destruct (_prepare_messages self p) as [msgs|]; [|done]. simpl.
  unfold consume_stream.
  destruct (consume_chunks _ _) as [st|] eqn:Hrun; [|done]. simpl.
  destruct (stream_end _) eqn:Hend; [|done].
  intros [= <-]. by eexists _, stage1, st.
Qed.

Lemma close_stage_safely_closed s :
  stage_closed (StageProcessor.close_stage_safely s) = true.
Proof.
  unfold StageProcessor.close_stage_safely.
  by destruct (stage_closed s) eqn:Hc.
Qed.

Lemma propagate_stage_keeps m d m' idx :
  propagate_stage m d = Ok m' → is_Some (m !! idx) → is_Some (m' !! idx).
Proof.
  intros Hd [s Hs].
  assert (∀ s', is_Some (<[sd_index d:=s']> m !! idx)) as Hins.
  { intros s'. rewrite lookup_insert. case_decide; eauto. }
  unfold propagate_stage in Hd.
  destruct (m !! sd_index d) as [opened|]; [|by injection Hd as <-].
  repeat match type of Hd with
    | (if ?b then _ else _) = _ => destruct b
    | mbind _ ?r = _ => destruct r; simpl in Hd; [|done]
    end; injection Hd as <-; eauto.
Qed.

Lemma propagate_stage_opens m d m' :
  propagate_stage m d = Ok m' → is_Some (m' !! sd_index d).
Proof.
  intros Hd. destruct (m !! sd_index d) as [s|] eqn:Hs.
  - eapply propagate_stage_keeps; eauto.
  - unfold propagate_stage in Hd. rewrite Hs in Hd. injection Hd as <-.
    rewrite lookup_insert_eq. eauto.
Qed.

Lemma propagate_stages_keeps deltas :
  ∀ m m' idx, propagate_stages m deltas = Ok m' →
    is_Some (m !! idx) → is_Some (m' !! idx).
Proof.
  induction deltas as [|d deltas IH]; intros m m' idx Hrun Hidx;
    simpl in Hrun.
  - by injection Hrun as <-.
  - destruct (propagate_stage m d) as [m1|] eqn:Hd; [|done].
    eapply IH; eauto using propagate_stage_keeps.
Qed.

(** Every index a delta was delivered for is in the map afterwards. *)
Lemma propagate_stages_opens deltas :
  ∀ m m' d, propagate_stages m deltas = Ok m' →
    d ∈ deltas → is_Some (m' !! sd_index d).
Proof.
  induction deltas as [|d0 deltas IH]; intros m m' d Hrun Hin;
    simpl in Hrun.
  - by apply elem_of_nil in Hin.
  - destruct (propagate_stage m d0) as [m1|] eqn:Hd; [|done].
    simpl in Hrun. apply elem_of_cons in Hin as [->|Hin].
    + eapply propagate_stages_keeps; eauto using propagate_stage_opens.
    + eapply IH; eauto.
Qed.

(** The stages left behind in terms of the stage-deltas consumed. *)
Lemma _execute_stages py_str send self p req o :
  request py_str self p = Ok req →
  _execute py_str send self p = Ok o →
  ∃ m,
    propagate_stages ∅ (stage_deltas (stream_chunks (send req))) = Ok m ∧
    final_stages o = StageProcessor.close_stage_safely <$> m.
Proof.
  intros Hreq Hrun.
  apply _execute_inv in Hrun as (req' & stage1 & st & Hreq' & _ & Hrun & ->).
  assert (req' = req) as -> by congruence.
  apply consume_chunks_follows in Hrun as [_ _ _ Hm]. simpl in *.
  by exists (r_stages_map st).
Qed.

(** *** When [_execute] returns *)

Lemma consume_chunk_returns st c m :
  has_delta c = true →
  stage_closed (r_stage st) = false →
  propagate_stages (r_stages_map st) (stage_delta c) = Ok m →
  ∃ st', consume_chunk st c = Ok st' ∧
         stage_closed (r_stage st') = false ∧ r_stages_map st' = m.
Proof.
  intros Hdelta Hopen Hm.
  unfold consume_chunk, has_delta, stage_delta, custom_delta, first_delta
    in *.
  destruct (choices c) as [|choice ?].
  { injection Hm as <-. eauto. }
  destruct (choice_delta choice) as [delta|]; [|done]. simpl in Hm.
  assert (∃ st1, mirror_content st delta = Ok st1 ∧
                 stage_closed (r_stage st1) = false ∧
                 r_stages_map st1 = r_stages_map st)
    as (st1 & -> & Hopen1 & Hmap1).
  { unfold mirror_content, append_content. rewrite Hopen.
    destruct (truthy_str (delta_content delta)); simpl; eauto. }
  simpl. destruct (delta_custom_content delta) as [cc|].
  2:{ injection Hm as <-. eauto. }
  unfold collect_custom_content. rewrite Hmap1.
  destruct (truthy_list (ccd_stages cc)) eqn:Hstages.
  - rewrite Hm. simpl. eauto.
  - rewrite truthy_list_default in Hm by done.
    injection Hm as <-. simpl. eauto.
Qed.

Lemma consume_chunks_returns chunks :
  ∀ st m,
    Forall (λ c, has_delta c = true) chunks →
    stage_closed (r_stage st) = false →
    propagate_stages (r_stages_map st) (stage_deltas chunks) = Ok m →
    ∃ st', consume_chunks st chunks = Ok st'.
Proof.
  induction chunks as [|c chunks IH]; intros st m Hwf Hopen Hm; simpl.
  - eauto.
  - inversion Hwf as [|? ? Hc Hrest]; subst.
    unfold stage_deltas in Hm. rewrite bind_cons in Hm.
    rewrite propagate_stages_app in Hm.
    destruct (propagate_stages (r_stages_map st) (stage_delta c))
      as [m1|] eqn:Hm1; [|done].
    destruct (consume_chunk_returns st c m1 Hc Hopen Hm1)
      as (st1 & -> & Hopen1 & <-).
    simpl in *. by apply (IH st1 m).
Qed.

Lemma label_stage_open py_str p stage1 forwarded :
  stage_closed (stage p) = false →
  label_stage py_str p = Ok (stage1, forwarded) →
  stage_closed stage1 = false.
Proof.
  intros Hopen. unfold label_stage, append_name. rewrite Hopen.
  destruct (truthy _); simpl; by intros [= <- _].
Qed.

(** The invocation returns whenever a request is sent, the caller's stage
    is open, the stream ends normally, every chunk's first choice has a
    delta, and no stage is mutated after its completion signal. *)
Lemma _execute_returns py_str send self p req :
  request py_str self p = Ok req →
  stage_closed (stage p) = false →
  stream_end (send req) = Exhausted →
  Forall (λ c, has_delta c = true) (stream_chunks (send req)) →
  (∀ idx,
     orderly (tail (deltas_for idx (stage_deltas (stream_chunks (send req)))))
     = true) →
  ∃ o, _execute py_str send self p = Ok o.
Proof.
  intros Hreq Hopen Hend Hwf Hord. unfold _execute, request in *.
  destruct (label_stage py_str p) as [[stage1 forwarded]|] eqn:Hlabel;
    [|done].
  simpl in *.
  destruct (_prepare_messages self p) as [msgs|]; [|done]. simpl in *.
  injection Hreq as <-.
  destruct (propagate_stages_orderly _ Hord) as [m Hm].
  destruct (consume_chunks_returns _ (fresh stage1) m Hwf) as [st Hst];
    [by eapply label_stage_open|done|].
  unfold consume_stream. rewrite Hst. simpl.
  rewrite Hend. eauto.
Qed.

(** *** The claims *)

(** C8.  Tool-result turn: when the invocation returns normally, what it
    returns is one turn with role tool, content the concatenation in
    arrival order of the content deltas consumed, custom content the
    accumulated state and the accumulated attachment list, and the
    identifier of the originating tool call. *)
Theorem tool_result_turn py_str send self p req o :
  request py_str self p = Ok req →
  _execute py_str send self p = Ok o →
  message o
  = {| role := TOOL;
       content := Some (joined (content_deltas (stream_chunks (send req))));
       custom_content :=
         Some {| cc_attachments :=
                   Some (attachment_deltas (stream_chunks (send req)));
                 cc_state :=
                   default JNull
                     (last (state_deltas (stream_chunks (send req)))) |};
       tool_call_id := Some (tool_call_id_of p) |}.
Proof.
  intros Hreq Hrun.
  apply _execute_inv in Hrun as (req' & stage1 & st & Hreq' & _ & Hrun & ->).
  assert (req' = req) as -> by congruence.
  apply consume_chunks_follows in Hrun as [Hc Ha Hs _]. simpl in *.
  rewrite Hc. f_equal. f_equal.
  destruct (r_custom_content st) as [atts state]. simpl in *.
  by rewrite Ha, Hs.
Qed.

Lemma tool_result_turn_witness :
  message busy_outcome
  = {| role := TOOL;
       content := Some (joined (content_deltas busy_chunks));
       custom_content :=
         Some {| cc_attachments := Some (attachment_deltas busy_chunks);
                 cc_state := default JNull (last (state_deltas busy_chunks)) |};
       tool_call_id := Some "call_1" |}.
Proof.
  apply (tool_result_turn str_of (answers busy_chunks) calc_tool
           one_shot_call one_shot_request busy_outcome).
  - vm_compute. reflexivity.
  - vm_compute. reflexivity.
Defined.

(** C7.  State last-write-wins: when two or more chunks carry a non-empty
    state object, the state of the returned turn is the state object of the
    last such chunk, as it is. *)
Theorem state_last_write_wins py_str send self p req o :
  request py_str self p = Ok req →
  _execute py_str send self p = Ok o →
  (2 ≤ length (state_deltas (stream_chunks (send req))))%nat →
  cc_state <$> custom_content (message o)
  = last (state_deltas (stream_chunks (send req))).
Proof.
  intros Hreq Hrun Hlen.
  apply _execute_inv in Hrun as (req' & stage1 & st & Hreq' & _ & Hrun & ->).
  assert (req' = req) as -> by congruence.
  apply consume_chunks_follows in Hrun as [_ _ Hs _]. simpl in *.
  rewrite Hs.
  destruct (last (state_deltas (stream_chunks (send req)))) as [x|] eqn:Hl;
    [done|].
  apply last_None in Hl. rewrite Hl in Hlen. simpl in Hlen. lia.
Qed.

Lemma state_last_write_wins_witness :
  cc_state <$> custom_content (message busy_outcome)
  = last (state_deltas busy_chunks).
Proof.
  apply (state_last_write_wins str_of (answers busy_chunks) calc_tool
           one_shot_call one_shot_request busy_outcome).
  - vm_compute. reflexivity.
  - vm_compute. reflexivity.
  - vm_compute. lia.
Defined.

(** C5.  All stages closed on normal completion: when the invocation
    returns normally, every index a stage-delta was delivered for has a
    stage, and every stage opened is closed, whether or not a completed
    signal was received for it. *)
Theorem all_stages_closed py_str send self p req o :
  request py_str self p = Ok req →
  _execute py_str send self p = Ok o →
  (∀ d, d ∈ stage_deltas (stream_chunks (send req)) →
     ∃ s, final_stages o !! sd_index d = Some s ∧ stage_closed s = true) ∧
  (∀ idx s, final_stages o !! idx = Some s → stage_closed s = true).
Proof.
  intros Hreq Hrun.
  destruct (_execute_stages _ _ _ _ _ _ Hreq Hrun) as (m & Hm & ->).
  assert (∀ idx s,
            (StageProcessor.close_stage_safely <$> m) !! idx = Some s →
            stage_closed s = true) as Hclosed.
  { intros idx s. rewrite lookup_fmap.
    destruct (m !! idx) as [s0|]; simpl; [|done].
    intros [= <-]. apply close_stage_safely_closed. }
  split; [|done].
  intros d Hd.
  destruct (propagate_stages_opens _ _ _ _ Hm Hd) as [s0 Hs0].
  exists (StageProcessor.close_stage_safely s0). split.
  - by rewrite lookup_fmap, Hs0.
  - apply close_stage_safely_closed.
Qed.

Lemma all_stages_closed_witness :
  (∀ d, d ∈ stage_deltas busy_chunks →
     ∃ s, final_stages busy_outcome !! sd_index d = Some s
          ∧ stage_closed s = true) ∧
  (∀ idx s, final_stages busy_outcome !! idx = Some s →
     stage_closed s = true).
Proof.
  apply (all_stages_closed str_of (answers busy_chunks) calc_tool
           one_shot_call one_shot_request busy_outcome).
  - vm_compute. reflexivity.
  - vm_compute. reflexivity.
Defined.

(** C4, as amended.  Stage-delta priority dispatch: when the invocation
    returns normally, the first delta delivered for an index opens the stage
    under its name (empty when it has none) and contributes nothing else;
    every later delta for the index contributes only the first non-empty of
    its fields in the order name, content, attachments, completed; and the
    stage's name, content and attachments are the concatenations, in arrival
    order, of exactly those selected fields. *)
Theorem stage_delta_priority py_str send self p req o idx first later :
  request py_str self p = Ok req →
  _execute py_str send self p = Ok o →
  deltas_for idx (stage_deltas (stream_chunks (send req))) = first :: later →
  final_stages o !! idx
  = Some {| stage_name :=
              default "" (sd_name first) +:+ joined (name_fragment <$> later);
            stage_content := joined (content_fragment <$> later);
            stage_attachments := later ≫= attachment_batch;
            stage_closed := true |}.
Proof.
  intros Hreq Hrun Hfor.
  destruct (_execute_stages _ _ _ _ _ _ Hreq Hrun) as (m & Hm & ->).
  apply propagate_stages_represents in Hm.
  rewrite lookup_fmap, (Hm idx), Hfor. simpl.
  unfold StageProcessor.close_stage_safely. simpl.
  by destruct (existsb completes later).
Qed.

Lemma stage_delta_priority_witness :
  final_stages busy_outcome !! 1
  = Some {| stage_name :=
              "Run" +:+ joined (name_fragment <$>
                [content_stage_delta 1 "go"; completed_delta 1;
                 completed_delta 1]);
            stage_content :=
              joined (content_fragment <$>
                [content_stage_delta 1 "go"; completed_delta 1;
                 completed_delta 1]);
            stage_attachments :=
              [content_stage_delta 1 "go"; completed_delta 1;
               completed_delta 1] ≫= attachment_batch;
            stage_closed := true |}.
Proof.
  apply (stage_delta_priority str_of (answers busy_chunks) calc_tool
           one_shot_call one_shot_request busy_outcome 1
           (name_delta 1 "Run")
           [content_stage_delta 1 "go"; completed_delta 1;
            completed_delta 1]).
  - vm_compute. reflexivity.
  - vm_compute. reflexivity.
  - vm_compute. reflexivity.
Defined.

(** C4, as stated, fails: two content fragments are delivered for index 0,
    the first of them being the first delta seen for that index.  The
    selected fields concatenate to ["ab"]; the stage's content is the second
    fragment alone. *)
Lemma first_content_fragment_dropped :
  deltas_for 0 (stage_deltas content_first_chunks)
  = [content_stage_delta 0 "a"; content_stage_delta 0 "b"] ∧
  joined (content_fragment
            <$> [content_stage_delta 0 "a"; content_stage_delta 0 "b"])
  = "ab" ∧
  ∃ o,
    _execute str_of (answers content_first_chunks) calc_tool one_shot_call
    = Ok o ∧
    final_stages o !! 0
    = Some {| stage_name := ""; stage_content := "b";
              stage_attachments := []; stage_closed := true |}.
Proof.
  split; [vm_compute; reflexivity|]. split; [vm_compute; reflexivity|].
  eexists. split; vm_compute; reflexivity.
Qed.

(** C6.  Idempotent close: a completed delta for a stage that is already
    closed raises nothing and leaves the stages map, hence the stage's name,
    content and attachments, as they are; the closing pass at the end of
    the stream leaves an already closed stage as it is. *)
Theorem idempotent_close stages_map stg s :
  stages_map !! sd_index stg = Some s →
  stage_closed s = true →
  selected stg = SelCompleted →
  propagate_stage stages_map stg = Ok stages_map ∧
  StageProcessor.close_stage_safely s = s ∧
  (StageProcessor.close_stage_safely <$> stages_map) !! sd_index stg = Some s.
Proof.
  intros Hs Hclosed Hsel.
  assert (StageProcessor.close_stage_safely s = s) as Hclose.
  { unfold StageProcessor.close_stage_safely. by rewrite Hclosed. }
  split; [|split; [done|by rewrite lookup_fmap, Hs; simpl; rewrite Hclose]].
  unfold propagate_stage, selected in *. rewrite Hs.
  destruct (truthy_str (sd_name stg)); [done|].
  destruct (truthy_str (sd_content stg)); [done|].
  destruct (truthy_list (sd_attachments stg)); [done|].
  destruct (is_completed (sd_status stg)); [|done].
  by rewrite Hclose, insert_id.
Qed.

Lemma idempotent_close_witness :
  propagate_stage (final_stages busy_outcome) (completed_delta 1)
  = Ok (final_stages busy_outcome) ∧
  StageProcessor.close_stage_safely
    {| stage_name := "Run"; stage_content := "go";
       stage_attachments := []; stage_closed := true |}
  = {| stage_name := "Run"; stage_content := "go";
       stage_attachments := []; stage_closed := true |} ∧
  (StageProcessor.close_stage_safely <$> final_stages busy_outcome) !! 1
  = Some {| stage_name := "Run"; stage_content := "go";
            stage_attachments := []; stage_closed := true |}.
Proof.
  apply (idempotent_close (final_stages busy_outcome) (completed_delta 1)
           {| stage_name := "Run"; stage_content := "go";
              stage_attachments := []; stage_closed := true |}).
  - vm_compute. reflexivity.
  - reflexivity.
  - reflexivity.
Defined.

End Reconstructor.

(** ** Further properties of the History Propagator *)

Module PropagatorFacts.
Import Propagator.

(** The loop body, for any turn. *)
Lemma history_turn_readable callee msgs idx m :
  msgs !! idx = Some m →
  history_turn callee msgs idx
  = if state_readable m then
      match callee_state callee m with
      | Some sub =>
          prev ← py_index msgs (Z.of_nat idx - 1);
          Ok [Message_dict prev; Message_dict (set_state m sub)]
      | None => Ok []
      end
    else Raise AttributeError.
Proof.
  intros Hm. unfold history_turn, callee_state, state_readable.
  rewrite (py_index_nat _ _ _ Hm). simpl.
  destruct (decide (role m = ASSISTANT)); [|done].
  destruct (custom_content m) as [cc|]; [|done].
  destruct (cc_state cc) as [|b|n|s|l|d] eqn:Hst; simpl; try done.
  - by destruct b.
  - by destruct (n =? 0).
  - by destruct (String.eqb s "").
  - by destruct l.
  - rewrite orb_true_r. case_bool_decide as Hd; simpl.
    + subst d. by rewrite lookup_empty.
    + destruct (d !! callee) as [v|]; simpl; [|done].
      by destruct (truthy v).
Qed.

Lemma history_loop_prefix callee msgs idxs :
  ∀ out out', history_loop callee msgs idxs out = Ok out' →
    ∃ ext, out' = out ++ ext.
Proof.
  induction idxs as [|idx idxs IH]; intros out out' Hrun; simpl in Hrun.
  - injection Hrun as <-. exists []. by rewrite app_nil_r.
  - destruct (history_turn callee msgs idx) as [emitted|]; [|done].
    simpl in Hrun. destruct (IH _ _ Hrun) as [ext ->].
    exists (emitted ++ ext). by rewrite app_assoc.
Qed.

(** The loop over the positions of a suffix of the transcript: it raises
    exactly when a turn of the suffix has an unreadable state, and otherwise
    appends two turns for every turn that holds the callee's sub-state. *)
Lemma history_loop_suffix callee rest :
  ∀ pre out,
    history_loop callee (pre ++ rest) (seq (length pre) (length rest)) out
    = (if forallb state_readable rest
       then history_loop callee (pre ++ rest)
              (seq (length pre) (length rest)) out
       else Raise AttributeError) ∧
    (forallb state_readable rest = true →
     ∃ out',
       history_loop callee (pre ++ rest) (seq (length pre) (length rest)) out
       = Ok out' ∧
       length out'
       = (length out + 2 * length (omap (callee_state callee) rest))%nat).
Proof.
  induction rest as [|m rest IH]; intros pre out.
  - simpl. split; [done|]. intros _. exists out. split; [done|lia].
  - assert ((pre ++ m :: rest) !! length pre = Some m) as Hm.
    { rewrite lookup_app_r by lia. by rewrite Nat.sub_diag. }
    specialize (IH (pre ++ [m])).
    rewrite <- app_assoc, length_app, Nat.add_1_r in IH. simpl in IH.
    simpl. rewrite (history_turn_readable _ _ _ _ Hm).
    destruct (state_readable m); simpl; [|by split].
    assert (∃ emitted,
              match callee_state callee m with
              | Some sub =>
                  prev ← py_index (pre ++ m :: rest)
                           (Z.of_nat (length pre) - 1);
                  Ok [Message_dict prev; Message_dict (set_state m sub)]
              | None => Ok []
              end = Ok emitted ∧
              length emitted
              = (2 * length (from_option (λ x, [x]) []
                               (callee_state callee m)))%nat)
      as (emitted & -> & Hlen).
    { destruct (callee_state callee m) as [sub|]; [|by exists []].
      destruct (py_index_in_range (pre ++ m :: rest)
                  (Z.of_nat (length pre) - 1)) as [prev ->].
      { rewrite length_app. simpl. lia. }
      simpl. eauto. }
    simpl. destruct (IH (out ++ emitted)) as [Hcase Hok]. split.
    + rewrite Hcase at 1. by destruct (forallb state_readable rest).
    + intros Hall. destruct (Hok Hall) as (out' & -> & Hlen').
      exists out'. split; [done|]. rewrite Hlen', length_app, Hlen.
      destruct (callee_state callee m); simpl;
        change (list_omap _ _ (callee_state callee) rest)
          with (omap (callee_state callee) rest); lia.
Qed.

(** What a returned list went through. *)
Lemma _prepare_messages_inv self p out :
  _prepare_messages self p = Ok out →
  ∃ prompt hist last_msg,
    arguments p !! "prompt" = Some prompt ∧
    last (messages p) = Some last_msg ∧
    (if propagates p
     then history_loop (name self) (messages p)
            (seq 0 (length (messages p))) [] = Ok hist
     else hist = []) ∧
    out = hist ++ [prompt_turn prompt (custom_content last_msg)].
Proof.
  unfold _prepare_messages, py_getitem, propagates.
  destruct (arguments p !! "prompt") as [prompt|]; [|done]. simpl.
  rewrite py_index_last.
  destruct (truthy _); simpl.
  - destruct (history_loop _ _ _ _) as [hist|]; [|done]. simpl.
    destruct (last (messages p)) as [last_msg|]; [|done]. simpl.
    intros [= <-]. by exists prompt, hist, last_msg.
  - destruct (last (messages p)) as [last_msg|]; [|done]. simpl.
    intros [= <-]. by exists prompt, [], last_msg.
Qed.

(** X1.  [_prepare_messages] returns a list exactly when the prompt is
    given, the transcript is not empty and, if the history is propagated,
    every assistant turn's state is falsy or a dictionary. *)
Theorem prepare_messages_returns_iff self p :
  (∃ out, _prepare_messages self p = Ok out) ↔
  is_Some (arguments p !! "prompt") ∧
  messages p ≠ [] ∧
  (propagates p = true → forallb state_readable (messages p) = true).
Proof.
  pose proof (history_loop_suffix (name self) (messages p) [] [])
    as [Hcase Hok]. simpl in Hcase, Hok.
  split.
  - intros [out Hout].
    apply _prepare_messages_inv in Hout
      as (prompt & hist & last_msg & Hprompt & Hlast & Hloop & _).
    split; [by rewrite Hprompt|]. split.
    + intros Hnil. by rewrite Hnil in Hlast.
    + intros Hprop. rewrite Hprop in Hloop.
      destruct (forallb state_readable (messages p)); [done|].
      congruence.
  - intros ([prompt Hprompt] & Hne & Hread).
    unfold _prepare_messages, py_getitem. fold (propagates p).
    rewrite Hprompt. simpl. rewrite py_index_last.
    destruct (last (messages p)) as [last_msg|] eqn:Hlast.
    2:{ by apply last_None in Hlast. }
    destruct (propagates p); simpl; [|eauto].
    destruct (Hok (Hread eq_refl)) as (hist & -> & _). simpl. eauto.
Qed.

(** X2.  On arguments that parsed to a JSON object: when
    [_prepare_messages] raises, the error is [KeyError] for the prompt if it
    is missing; otherwise [AttributeError] if the history is propagated and
    some assistant turn's state is truthy and not a dictionary; otherwise
    [IndexError], the transcript being empty. *)
Theorem prepare_messages_error self p e :
  _prepare_messages self p = Raise e →
  e = match arguments p !! "prompt" with
      | None => KeyError "prompt"
      | Some _ =>
          if propagates p && negb (forallb state_readable (messages p))
          then AttributeError
          else IndexError
      end ∧
  (e = IndexError → messages p = []).
Proof.
  pose proof (history_loop_suffix (name self) (messages p) [] [])
    as [Hcase Hok]. simpl in Hcase, Hok.
  unfold _prepare_messages, py_getitem. fold (propagates p).
  destruct (arguments p !! "prompt") as [prompt|]; simpl.
  2:{ intros [= <-]. by split. }
  rewrite py_index_last.
  destruct (propagates p); simpl.
  - destruct (forallb state_readable (messages p)); simpl.
    + destruct (Hok eq_refl) as (hist & -> & _). simpl.
      destruct (last (messages p)) as [last_msg|] eqn:Hlast; [done|].
      simpl. intros [= <-]. split; [done|]. intros _.
      by apply last_None in Hlast.
    + rewrite Hcase. simpl. intros [= <-]. by split.
  - destruct (last (messages p)) as [last_msg|] eqn:Hlast; [done|].
    simpl. intros [= <-]. split; [done|]. intros _.
    by apply last_None in Hlast.
Qed.

Lemma prepare_messages_error_witness :
  AttributeError
  = match arguments (call propagate_args
                       [plain USER "hi"; with_state ASSISTANT "" (JStr "calc")])
          !! "prompt" with
    | None => KeyError "prompt"
    | Some _ =>
        if propagates (call propagate_args
                         [plain USER "hi";
                          with_state ASSISTANT "" (JStr "calc")])
           && negb (forallb state_readable
                      [plain USER "hi"; with_state ASSISTANT "" (JStr "calc")])
        then AttributeError
        else IndexError
    end ∧
  (AttributeError = IndexError →
   [plain USER "hi"; with_state ASSISTANT "" (JStr "calc")] = []).
Proof.
  apply (prepare_messages_error calc_tool
           (call propagate_args
              [plain USER "hi"; with_state ASSISTANT "" (JStr "calc")])).
  vm_compute. reflexivity.
Defined.

(** X3.  The length of the outbound list: the new user turn, and under
    propagation two turns for every transcript turn that holds the callee's
    sub-state (the first turn included). *)
Theorem prepare_messages_length self p out :
  _prepare_messages self p = Ok out →
  length out
  = (1 + if propagates p
         then 2 * length (omap (callee_state (name self)) (messages p))
         else 0)%nat.
Proof.
  intros Hout.
  apply _prepare_messages_inv in Hout
    as (prompt & hist & last_msg & _ & _ & Hloop & ->).
  rewrite length_app. simpl.
  destruct (propagates p).
  - pose proof (history_loop_suffix (name self) (messages p) [] [])
      as [Hcase Hok]. simpl in Hcase, Hok.
    destruct (forallb state_readable (messages p)); [|congruence].
    destruct (Hok eq_refl) as (hist' & Hloop' & Hlen).
    assert (hist' = hist) as -> by congruence. simpl in Hlen. lia.
  - subst hist. simpl. lia.
Qed.

Lemma prepare_messages_length_witness :
  length [ Message_dict (plain USER "q1");
           Message_dict (with_state ASSISTANT "a1" calc_state);
           prompt_turn (JStr "continue") None ]
  = (1 + if propagates (call propagate_args interleaved_transcript)
         then 2 * length (omap (callee_state "calc") interleaved_transcript)
         else 0)%nat.
Proof.
  apply (prepare_messages_length calc_tool
           (call propagate_args interleaved_transcript)).
  vm_compute. reflexivity.
Defined.

Lemma omap_all_None {A B} (f : A → option B) (l : list A) :
  Forall (λ x, f x = None) l → omap f l = [].
Proof.
  induction 1 as [|x l Hx _ IH]; [done|]. simpl. by rewrite Hx.
Qed.

(** X4.  Propagation that finds nothing for the callee is one-shot mode:
    when no transcript turn holds the callee's sub-state, whatever list the
    call returns is the list the same call returns without
    [propagate_history]. *)
Theorem propagation_without_state_is_one_shot self p out :
  Forall (λ m, callee_state (name self) m = None) (messages p) →
  _prepare_messages self p = Ok out →
  _prepare_messages self
    (with_arguments p (delete "propagate_history" (arguments p)))
  = Ok out.
Proof.
  intros Hnone Hout.
  apply _prepare_messages_inv in Hout
    as (prompt & hist & last_msg & Hprompt & Hlast & Hloop & ->).
  assert (hist = []) as ->.
  { destruct (propagates p); [|done].
    pose proof (history_loop_suffix (name self) (messages p) [] [])
      as [Hcase Hok]. simpl in Hcase, Hok.
    destruct (forallb state_readable (messages p)); [|congruence].
    destruct (Hok eq_refl) as (hist' & Hloop' & Hlen).
    assert (hist' = hist) as -> by congruence.
    rewrite omap_all_None in Hlen by done. simpl in Hlen.
    by destruct hist. }
  unfold _prepare_messages, py_getitem, with_arguments. simpl.
  rewrite (lookup_delete_ne (arguments p) "propagate_history" "prompt")
    by done.
  rewrite Hprompt. simpl.
  rewrite lookup_delete_eq. simpl.
  by rewrite py_index_last, Hlast.
Qed.

Lemma propagation_without_state_is_one_shot_witness :
  _prepare_messages calc_tool
    (with_arguments
       (call propagate_args [plain USER "q"; with_state ASSISTANT "a"
                                               (JObj {[ "search" := JStr "s" ]})])
       (delete "propagate_history" propagate_args))
  = Ok [ prompt_turn (JStr "continue")
           (Some {| cc_attachments := None;
                    cc_state := JObj {[ "search" := JStr "s" ]} |}) ].
Proof.
  apply (propagation_without_state_is_one_shot calc_tool
           (call propagate_args
              [plain USER "q";
               with_state ASSISTANT "a" (JObj {[ "search" := JStr "s" ]})])).
  - repeat constructor.
  - vm_compute. reflexivity.
Defined.

(** X5.  A first turn that holds the callee's sub-state has no turn before
    it: what the code emits in that place is the last turn of the transcript,
    followed by the narrowed copy of the first turn. *)
Theorem first_turn_pairs_with_last_turn self p first rest sub out :
  messages p = first :: rest →
  callee_state (name self) first = Some sub →
  propagates p = true →
  _prepare_messages self p = Ok out →
  ∃ last_msg others,
    last (messages p) = Some last_msg ∧
    out = Message_dict last_msg :: Message_dict (set_state first sub) :: others.
Proof.
  intros Hmsgs Hsub Hprop Hout.
  apply _prepare_messages_inv in Hout
    as (prompt & hist & last_msg & _ & Hlast & Hloop & ->).
  rewrite Hprop, Hmsgs in Hloop. simpl in Hloop.
  rewrite (history_turn_readable _ (first :: rest) 0 first) in Hloop by done.
  destruct (state_readable first); [|done]. rewrite Hsub in Hloop.
  change (Z.of_nat 0 - 1) with (-1) in Hloop.
  rewrite py_index_last, <- Hmsgs, Hlast in Hloop. simpl in Hloop.
  apply history_loop_prefix in Hloop as [ext ->].
  exists last_msg, (ext ++ [prompt_turn prompt (custom_content last_msg)]).
  by split.
Qed.

Lemma first_turn_pairs_with_last_turn_witness :
  ∃ last_msg others,
    last headless_transcript = Some last_msg ∧
    [ Message_dict (plain USER "next");
      Message_dict (with_state ASSISTANT "" calc_state);
      prompt_turn (JStr "continue") None ]
    = Message_dict last_msg
      :: Message_dict
           (set_state
              (with_state ASSISTANT "" (JObj {[ "calc" := calc_state ]}))
              calc_state)
      :: others.
Proof.
  apply (first_turn_pairs_with_last_turn calc_tool
           (call propagate_args headless_transcript)
           (with_state ASSISTANT "" (JObj {[ "calc" := calc_state ]}))
           [plain USER "next"] calc_state).
  - reflexivity.
  - vm_compute. reflexivity.
  - vm_compute. reflexivity.
  - vm_compute. reflexivity.
Defined.

(** *** Roles of the outbound turns *)

Lemma callee_thread_roles callee rest :
  ∀ prev,
    follows_user callee prev rest = true →
    dict_role <$> callee_thread callee prev rest
    = mjoin (replicate (length (omap (callee_state callee) rest))
               [Some (JStr "user"); Some (JStr "assistant")]).
Proof.
  induction rest as [|m rest IH]; intros prev Hfollows; [done|].
  simpl in Hfollows. apply andb_true_iff in Hfollows as [Hprev Hrest].
  cbn [callee_thread]. rewrite fmap_app, (IH m Hrest).
  change (omap (callee_state callee) (m :: rest))
    with (match callee_state callee m with
          | Some y => y :: omap (callee_state callee) rest
          | None => omap (callee_state callee) rest
          end).
  destruct (callee_state callee m) as [sub|] eqn:Hsub; [|done].
  apply bool_decide_eq_true in Hprev.
  rewrite !fmap_cons, !dict_role_Message_dict, Hprev.
  change (role (set_state m sub)) with (role m).
  by rewrite (callee_state_assistant _ _ _ Hsub).
Qed.

(** X6.  Over a transcript in which every turn that holds the callee's
    sub-state directly follows a user turn, the outbound list alternates:
    a user turn and an assistant turn for every such turn, then the new
    user turn. *)
Theorem outbound_roles_alternate self p first rest out :
  messages p = first :: rest →
  callee_state (name self) first = None →
  Forall (λ m, state_is_mapping m = true) (messages p) →
  follows_user (name self) first rest = true →
  propagates p = true →
  _prepare_messages self p = Ok out →
  dict_role <$> out
  = mjoin (replicate (length (omap (callee_state (name self)) rest))
             [Some (JStr "user"); Some (JStr "assistant")])
    ++ [Some (JStr "user")].
Proof.
  intros Hmsgs Hfirst Hmap Hfollows Hprop Hout.
  apply _prepare_messages_inv in Hout
    as (prompt & hist & last_msg & _ & _ & Hloop & ->).
  rewrite Hprop, Hmsgs in Hloop. rewrite Hmsgs in Hmap.
  rewrite (history_loop_transcript _ _ _ Hfirst Hmap) in Hloop.
  injection Hloop as <-.
  rewrite fmap_app, (callee_thread_roles _ _ _ Hfollows).
  by rewrite fmap_cons, dict_role_prompt_turn.
Qed.

Lemma outbound_roles_alternate_witness :
  dict_role <$> [ Message_dict (plain USER "q1");
                  Message_dict (with_state ASSISTANT "a1" calc_state);
                  prompt_turn (JStr "continue") None ]
  = mjoin (replicate
             (length (omap (callee_state "calc") (tail interleaved_transcript)))
             [Some (JStr "user"); Some (JStr "assistant")])
    ++ [Some (JStr "user")].
Proof.
  apply (outbound_roles_alternate calc_tool
           (call propagate_args interleaved_transcript)
           (plain USER "q1") (tail interleaved_transcript)).
  - reflexivity.
  - reflexivity.
  - repeat constructor.
  - vm_compute. reflexivity.
  - vm_compute. reflexivity.
  - vm_compute. reflexivity.
Defined.

(** *** The narrowed copy *)

(** X7.  Narrowing touches the state only: the dictionary of the copy is the
    dictionary of the assistant turn with ["state"] under ["custom_content"]
    replaced; role, content, tool call id and attachments are those of the
    turn. *)
Theorem narrowing_replaces_state_only m cc v d dcc :
  custom_content m = Some cc →
  v ≠ JNull →
  Message_dict m = JObj d →
  CustomContent_dict cc = JObj dcc →
  Message_dict (set_state m v)
  = JObj (<["custom_content" := JObj (<["state" := v]> dcc)]> d).
Proof.
  intros Hcc Hv Hd Hdcc.
  unfold Message_dict, CustomContent_dict, set_state in *.
  rewrite Hcc in *. simpl in *.
  injection Hd as <-. injection Hdcc as <-.
  assert (not_none v = Some v) as -> by (by destruct v).
  f_equal. apply map_eq. intros k.
  assert (put "attachments"
            ((λ l, JArr (Attachment_dict <$> l)) <$> cc_attachments cc)
            (put "state" (Some v) ∅)
          = <["state" := v]>
              (put "attachments"
                 ((λ l, JArr (Attachment_dict <$> l)) <$> cc_attachments cc)
                 (put "state" (not_none (cc_state cc)) ∅))) as ->.
  { apply map_eq. intros k'. unfold put.
    destruct (cc_attachments cc), (not_none (cc_state cc)); simpl;
      rewrite ?lookup_insert; repeat case_decide; simplify_eq; done. }
  unfold put at 1 2 3 5 6 7.
  destruct (content m), (tool_call_id m); simpl;
    rewrite ?lookup_insert; repeat case_decide; simplify_eq; done.
Qed.

Lemma narrowing_replaces_state_only_witness :
  Message_dict
    (set_state (with_state ASSISTANT "a1"
                  (JObj {[ "calc" := calc_state; "search" := JStr "s1" ]}))
       calc_state)
  = JObj (<["custom_content" :=
              JObj (<["state" := calc_state]>
                      {[ "state" :=
                           JObj {[ "calc" := calc_state;
                                   "search" := JStr "s1" ]} ]})]>
            {[ "role" := JStr "assistant";
               "content" := JStr "a1";
               "custom_content" :=
                 JObj {[ "state" :=
                           JObj {[ "calc" := calc_state;
                                   "search" := JStr "s1" ]} ]} ]}).
Proof.
  apply (narrowing_replaces_state_only
           (with_state ASSISTANT "a1"
              (JObj {[ "calc" := calc_state; "search" := JStr "s1" ]}))
           {| cc_attachments := None;
              cc_state := JObj {[ "calc" := calc_state;
                                  "search" := JStr "s1" ]} |}).
  - reflexivity.
  - discriminate.
  - vm_compute. reflexivity.
  - vm_compute. reflexivity.
Defined.

(** *** Growing transcripts *)

Lemma callee_thread_app callee l1 :
  ∀ prev l2,
    callee_thread callee prev (l1 ++ l2)
    = callee_thread callee prev l1
      ++ callee_thread callee (default prev (last l1)) l2.
Proof.
  induction l1 as [|m l1 IH]; intros prev l2; [done|].
  cbn [callee_thread app]. rewrite IH, app_assoc. do 2 f_equal.
  rewrite last_cons. by destruct (last l1).
Qed.

(** X8.  The propagated history is stable under growth of the transcript:
    what is sent for a transcript is, up to the new user turn, a prefix of
    what is sent once more turns have been appended to it. *)
Theorem history_grows_with_transcript self p prompt first rest more :
  arguments p !! "prompt" = Some prompt →
  propagates p = true →
  messages p = first :: rest →
  callee_state (name self) first = None →
  Forall (λ m, state_is_mapping m = true) (messages p ++ more) →
  ∃ hist ext turn turn',
    _prepare_messages self p = Ok (hist ++ [turn]) ∧
    _prepare_messages self (with_messages p (messages p ++ more))
    = Ok (hist ++ ext ++ [turn']).
Proof.
  intros Hprompt Hprop Hmsgs Hfirst Hmap.
  assert (Forall (λ m, state_is_mapping m = true) (first :: rest)) as Hmap1.
  { rewrite <- Hmsgs. by apply Forall_app in Hmap as [? _]. }
  rewrite Hmsgs in Hmap. simpl in Hmap.
  exists (callee_thread (name self) first rest),
         (callee_thread (name self) (default first (last rest)) more).
  unfold _prepare_messages, py_getitem, with_messages. simpl.
  unfold propagates in Hprop. rewrite Hprompt, Hprop. simpl.
  rewrite !py_index_last, Hmsgs. simpl app.
  rewrite (history_loop_transcript _ _ _ Hfirst Hmap1).
  rewrite (history_loop_transcript _ _ _ Hfirst Hmap).
  rewrite callee_thread_app. simpl.
  destruct (last (first :: rest)) as [l1|] eqn:Hl1;
    [|by apply last_None in Hl1].
  destruct (last (first :: rest ++ more)) as [l2|] eqn:Hl2;
    [|by apply last_None in Hl2].
  simpl. eexists _, _. split; [done|]. by rewrite <- app_assoc.
Qed.

Lemma history_grows_with_transcript_witness :
  ∃ hist ext turn turn',
    _prepare_messages calc_tool (call propagate_args scenario_transcript)
    = Ok (hist ++ [turn]) ∧
    _prepare_messages calc_tool
      (with_messages (call propagate_args scenario_transcript)
         (scenario_transcript ++ [plain USER "more"]))
    = Ok (hist ++ ext ++ [turn']).
Proof.
  apply (history_grows_with_transcript calc_tool
           (call propagate_args scenario_transcript) (JStr "continue")
           (plain USER "hi") (tail scenario_transcript)).
  - vm_compute. reflexivity.
  - vm_compute. reflexivity.
  - reflexivity.
  - reflexivity.
  - repeat constructor.
Defined.

End PropagatorFacts.

(** ** Further properties of the invocation *)

Module InvocationFacts.
Import Propagator Reconstructor.

(** *** The request *)

Lemma request_inv py_str self p req :
  request py_str self p = Ok req →
  ∃ stage1 forwarded msgs,
    label_stage py_str p = Ok (stage1, forwarded) ∧
    _prepare_messages self p = Ok msgs ∧
    req = build_request self p forwarded msgs.
Proof.
  unfold request.
  destruct (label_stage py_str p) as [[stage1 forwarded]|]; [|done]. simpl.
  destruct (_prepare_messages self p) as [msgs|]; [|done]. simpl.
  intros [= <-]. by exists stage1, forwarded, msgs.
Qed.

(** X9.  What is forwarded to the callee: the messages of
    [_prepare_messages], the conversation id, and as configuration every
    argument but the prompt, [propagate_history] included; a prompt that is
    falsy (an empty string) is not stripped. *)
Theorem forwarded_configuration py_str self p req :
  request py_str self p = Ok req →
  _prepare_messages self p = Ok (req_messages req) ∧
  req_conversation_id req = conversation_id p ∧
  (∀ k, k ≠ "prompt" → req_configuration req !! k = arguments p !! k) ∧
  req_configuration req !! "prompt"
  = (v ← arguments p !! "prompt"; if truthy v then None else Some v).
Proof.
  intros Hreq.
  apply request_inv in Hreq as (stage1 & forwarded & msgs & Hlabel & Hmsgs & ->).
  simpl. split; [done|]. split; [done|].
  unfold label_stage in Hlabel.
  destruct (arguments p !! "prompt") as [v|] eqn:Hv; simpl in *.
  - destruct (truthy v).
    + destruct (append_name _ _) as [s|]; [|done]. simpl in Hlabel.
      injection Hlabel as _ <-. split.
      * intros k Hk. by rewrite lookup_delete_ne.
      * by rewrite lookup_delete_eq.
    + injection Hlabel as _ <-. by split.
  - injection Hlabel as _ <-. by split.
Qed.

Lemma forwarded_configuration_witness :
  _prepare_messages calc_tool one_shot_call
  = Ok (req_messages one_shot_request) ∧
  req_conversation_id one_shot_request = conversation_id one_shot_call ∧
  (∀ k, k ≠ "prompt" →
     req_configuration one_shot_request !! k = arguments one_shot_call !! k) ∧
  req_configuration one_shot_request !! "prompt"
  = (v ← arguments one_shot_call !! "prompt";
     if truthy v then None else Some v).
Proof.
  apply (forwarded_configuration str_of calc_tool one_shot_call
           one_shot_request).
  vm_compute. reflexivity.
Defined.

(** X10.  Without a prompt nothing is sent: the caller's stage is not
    labelled, no request is built, and the invocation raises [KeyError] for
    the prompt whatever the callee would answer. *)
Theorem missing_prompt_aborts py_str send self p :
  arguments p !! "prompt" = None →
  label_stage py_str p = Ok (stage p, arguments p) ∧
  request py_str self p = Raise (KeyError "prompt") ∧
  _execute py_str send self p = Raise (KeyError "prompt").
Proof.
  intros Hprompt.
  assert (label_stage py_str p = Ok (stage p, arguments p)) as Hlabel.
  { unfold label_stage. by rewrite Hprompt. }
  assert (_prepare_messages self p = Raise (KeyError "prompt")) as Hmsgs.
  { unfold _prepare_messages, py_getitem. by rewrite Hprompt. }
  split; [done|].
  unfold request, _execute. by rewrite Hlabel; simpl; rewrite Hmsgs.
Qed.

Lemma missing_prompt_aborts_witness :
  label_stage str_of (call ∅ scenario_transcript)
  = Ok (stage (call ∅ scenario_transcript), ∅) ∧
  request str_of calc_tool (call ∅ scenario_transcript)
  = Raise (KeyError "prompt") ∧
  _execute str_of (answers hello_chunks) calc_tool
    (call ∅ scenario_transcript)
  = Raise (KeyError "prompt").
Proof.
  apply (missing_prompt_aborts str_of (answers hello_chunks) calc_tool
           (call ∅ scenario_transcript)).
  reflexivity.
Defined.

(** *** The caller's own stage *)

(** The caller's stage along the chunk loop: the text of every content delta
    is appended to its content, and nothing else of it changes. *)
Lemma consume_chunks_stage chunks :
  ∀ st st', consume_chunks st chunks = Ok st' →
    r_stage st'
    = {| stage_name := stage_name (r_stage st);
         stage_content :=
           stage_content (r_stage st) +:+ joined (content_deltas chunks);
         stage_attachments := stage_attachments (r_stage st);
         stage_closed := stage_closed (r_stage st) |}.
Proof.
  induction chunks as [|c chunks IH]; intros st st' Hrun; simpl in Hrun.
  - injection Hrun as <-. simpl. rewrite string_app_nil_r. apply stage_eta.
  - destruct (consume_chunk st c) as [st1|] eqn:Hc; [|done]. simpl in Hrun.
    rewrite (IH _ _ Hrun). clear IH Hrun.
    unfold content_deltas. rewrite bind_cons, joined_app.
    fold (content_deltas chunks). rewrite string_app_assoc.
    assert (r_stage st1
            = {| stage_name := stage_name (r_stage st);
                 stage_content :=
                   stage_content (r_stage st) +:+ joined (content_delta c);
                 stage_attachments := stage_attachments (r_stage st);
                 stage_closed := stage_closed (r_stage st) |}) as ->; [|done].
    unfold consume_chunk, content_delta, first_delta in *.
    destruct (choices c) as [|choice ?].
    { injection Hc as <-. simpl. rewrite string_app_nil_r. apply stage_eta. }
    destruct (choice_delta choice) as [delta|]; [|done].
    destruct (mirror_content st delta) as [st0|] eqn:Hmirror; [|done].
    simpl in Hc.
    assert (r_stage st1 = r_stage st0) as ->.
    { destruct (delta_custom_content delta) as [cc|].
      - unfold collect_custom_content in Hc.
        destruct (if truthy_list (ccd_stages cc) then _ else _); [|done].
        by injection Hc as <-.
      - by injection Hc as <-. }
    unfold mirror_content, append_content in Hmirror.
    destruct (truthy_str (delta_content delta)).
    + destruct (stage_closed (r_stage st)) eqn:Hclosed; [done|].
      injection Hmirror as <-. simpl. unfold joined. simpl.
      by rewrite string_app_nil_r.
    + injection Hmirror as <-. simpl. rewrite string_app_nil_r.
      apply stage_eta.
Qed.

Lemma label_stage_inv py_str p stage1 forwarded :
  label_stage py_str p = Ok (stage1, forwarded) →
  stage1
  = {| stage_name := stage_name (stage p) +:+ label py_str p;
       stage_content := stage_content (stage p);
       stage_attachments := stage_attachments (stage p);
       stage_closed := stage_closed (stage p) |}.
Proof.
  unfold label_stage, label, append_name.
  destruct (truthy _).
  - destruct (stage_closed (stage p)) eqn:Hclosed; [done|]. simpl.
    by intros [= <- _].
  - intros [= <- _]. rewrite string_app_nil_r. apply stage_eta.
Qed.

(** X11.  The caller's stage mirrors the answer: on a normal return its
    name has gained the prompt label, its content has gained exactly the
    content of the returned turn, and the invocation has neither closed it
    nor attached anything to it. *)
Theorem caller_stage_mirrors_content py_str send self p o :
  _execute py_str send self p = Ok o →
  ∃ text,
    content (message o) = Some text ∧
    final_stage o
    = {| stage_name := stage_name (stage p) +:+ label py_str p;
         stage_content := stage_content (stage p) +:+ text;
         stage_attachments := stage_attachments (stage p);
         stage_closed := stage_closed (stage p) |}.
Proof.
  intros Hrun. unfold _execute in Hrun.
  destruct (label_stage py_str p) as [[stage1 forwarded]|] eqn:Hlabel;
    [|done].
  simpl in Hrun.
  destruct (_prepare_messages self p) as [msgs|]; [|done]. simpl in Hrun.
  unfold consume_stream in Hrun.
  destruct (consume_chunks _ _) as [st|] eqn:Hchunks; [|done].
  simpl in Hrun. destruct (stream_end _); [|done]. injection Hrun as <-.
  simpl. exists (r_content st). split; [done|].
  rewrite (consume_chunks_stage _ _ _ Hchunks).
  apply consume_chunks_follows in Hchunks as [Hcontent _ _ _].
  simpl in *. rewrite Hcontent.
  by rewrite (label_stage_inv _ _ _ _ Hlabel).
Qed.

Lemma caller_stage_mirrors_content_witness :
  ∃ text,
    content (message busy_outcome) = Some text ∧
    final_stage busy_outcome
    = {| stage_name := stage_name (stage one_shot_call)
                       +:+ label str_of one_shot_call;
         stage_content := stage_content (stage one_shot_call) +:+ text;
         stage_attachments := stage_attachments (stage one_shot_call);
         stage_closed := stage_closed (stage one_shot_call) |}.
Proof.
  apply (caller_stage_mirrors_content str_of (answers busy_chunks) calc_tool
           one_shot_call busy_outcome).
  vm_compute. reflexivity.
Defined.

(** X12.  Every attachment collected from the stream, and nothing else, is
    added to the choice, in arrival order: the attachments added to the
    choice are those of the returned turn. *)
Theorem choice_receives_attachments py_str send self p req o :
  request py_str self p = Ok req →
  _execute py_str send self p = Ok o →
  choice_attachments o = attachment_deltas (stream_chunks (send req)) ∧
  (custom_content (message o) ≫= cc_attachments)
  = Some (choice_attachments o).
Proof.
  intros Hreq Hrun.
  apply _execute_inv in Hrun as (req' & stage1 & st & Hreq' & _ & Hrun & ->).
  assert (req' = req) as -> by congruence.
  apply consume_chunks_follows in Hrun as [_ Ha _ _]. simpl in *.
  by rewrite Ha.
Qed.

Lemma choice_receives_attachments_witness :
  choice_attachments busy_outcome = attachment_deltas busy_chunks ∧
  (custom_content (message busy_outcome) ≫= cc_attachments)
  = Some (choice_attachments busy_outcome).
Proof.
  apply (choice_receives_attachments str_of (answers busy_chunks) calc_tool
           one_shot_call one_shot_request busy_outcome).
  - vm_compute. reflexivity.
  - vm_compute. reflexivity.
Defined.

(** *** What the loop does not read *)

Lemma consume_chunk_first_choice st c :
  consume_chunks st (first_choice_only c) = consume_chunk st c.
Proof.
  unfold first_choice_only, consume_chunk.
  destruct (choices c) as [|choice ?]; [done|].
  change (consume_chunks st [ {| choices := [choice] |} ])
    with (st' ← consume_chunk st {| choices := [choice] |}; Ok st').
  unfold consume_chunk. simpl.
  by destruct (match choice_delta choice with
               | Some delta => _ | None => _ end).
Qed.

Lemma consume_chunks_app chunks1 :
  ∀ st chunks2,
    consume_chunks st (chunks1 ++ chunks2)
    = st' ← consume_chunks st chunks1; consume_chunks st' chunks2.
Proof.
  induction chunks1 as [|c chunks1 IH]; intros st chunks2; [done|]. simpl.
  destruct (consume_chunk st c); simpl; [apply IH|done].
Qed.

Lemma consume_chunks_normalised chunks :
  ∀ st, consume_chunks st (chunks ≫= first_choice_only)
        = consume_chunks st chunks.
Proof.
  induction chunks as [|c chunks IH]; intros st; [done|].
  rewrite bind_cons, consume_chunks_app, consume_chunk_first_choice. simpl.
  destruct (consume_chunk st c); simpl; [apply IH|done].
Qed.

(** X13.  Only the first choice of a chunk is read, and a chunk without
    choices is skipped: dropping every other choice and every such chunk from
    the callee's answer changes nothing of the invocation, neither its result
    nor its error. *)
Theorem only_first_choice_is_read py_str send self p :
  _execute py_str (λ req, normalised (send req)) self p
  = _execute py_str send self p.
Proof.
  unfold _execute.
  destruct (label_stage py_str p) as [[stage1 forwarded]|]; [|done]. simpl.
  destruct (_prepare_messages self p) as [msgs|]; [|done]. simpl.
  unfold consume_stream, normalised. simpl.
  by rewrite consume_chunks_normalised.
Qed.

(** *** The stages left behind *)

(** X14.  A stage is left behind for exactly the indices stage-deltas were
    delivered for. *)
Theorem stages_exist_for_delivered_indices py_str send self p req o idx :
  request py_str self p = Ok req →
  _execute py_str send self p = Ok o →
  is_Some (final_stages o !! idx) ↔
  ∃ d, d ∈ stage_deltas (stream_chunks (send req)) ∧ sd_index d = idx.
Proof.
  intros Hreq Hrun.
  destruct (_execute_stages _ _ _ _ _ _ Hreq Hrun) as (m & Hm & ->).
  apply propagate_stages_represents in Hm.
  rewrite lookup_fmap, (Hm idx), fmap_is_Some.
  unfold deltas_for.
  destruct (filter _ _) as [|first later] eqn:Hfor; simpl.
  - split; [by intros [? ?]|]. intros (d & Hd & Hidx).
    assert (d ∈ filter (λ d, sd_index d = idx)
                  (stage_deltas (stream_chunks (send req)))) as Hin
      by (by apply list_elem_of_filter).
    rewrite Hfor in Hin. by apply elem_of_nil in Hin.
  - split; [|by eauto]. intros _.
    assert (first ∈ filter (λ d, sd_index d = idx)
                      (stage_deltas (stream_chunks (send req)))) as Hin
      by (rewrite Hfor; left).
    apply list_elem_of_filter in Hin as [Hidx Hin]. eauto.
Qed.

Lemma stages_exist_for_delivered_indices_witness :
  is_Some (final_stages busy_outcome !! 1) ↔
  ∃ d, d ∈ stage_deltas busy_chunks ∧ sd_index d = 1.
Proof.
  apply (stages_exist_for_delivered_indices str_of (answers busy_chunks)
           calc_tool one_shot_call one_shot_request busy_outcome 1).
  - vm_compute. reflexivity.
  - vm_compute. reflexivity.
Defined.

(** *** When the invocation returns *)

Lemma orderly_snoc later d :
  orderly (later ++ [d])
  = orderly later && (negb (mutates d) || negb (existsb completes later)).
Proof.
  induction later as [|d' later IH]; simpl.
  - by destruct (completes d), (mutates d).
  - destruct (completes d'); simpl.
    + rewrite forallb_app. simpl. by rewrite andb_true_r, orb_false_r.
    + apply IH.
Qed.

(** A run of the stage loop that does not raise saw no mutation of a stage
    after its completion signal. *)
Lemma propagate_stages_orderly_inv deltas :
  ∀ m, propagate_stages ∅ deltas = Ok m →
    ∀ idx, orderly (tail (deltas_for idx deltas)) = true.
Proof.
  induction deltas as [|d deltas IH] using rev_ind; intros m Hrun idx;
    [done|].
  apply propagate_stages_snoc_inv in Hrun as (m0 & Hrun & Hd).
  specialize (IH m0 Hrun).
  pose proof (propagate_stages_represents _ _ Hrun (sd_index d)) as Hrep.
  rewrite deltas_for_snoc.
  destruct (decide (sd_index d = idx)) as [<-|Hne];
    [|by rewrite app_nil_r].
  specialize (IH (sd_index d)).
  destruct (deltas_for (sd_index d) deltas) as [|first later]; [done|].
  simpl in *. rewrite orderly_snoc, IH. simpl.
  rewrite (propagate_stage_seen _ _ _ Hrep) in Hd. simpl in Hd.
  destruct (mutates d) eqn:Hmut; [|done]. simpl in *.
  destruct (existsb completes later) eqn:Hclosed; [|done].
  destruct (propagate_stage_closed_mutation m0 d _ Hrep Hmut) as [e He];
    [done|congruence].
Qed.

Lemma consume_chunks_has_delta chunks :
  ∀ st st', consume_chunks st chunks = Ok st' →
    Forall (λ c, has_delta c = true) chunks.
Proof.
  induction chunks as [|c chunks IH]; intros st st' Hrun; [done|].
  simpl in Hrun. destruct (consume_chunk st c) as [st1|] eqn:Hc; [|done].
  constructor; [|by eapply IH].
  unfold consume_chunk, has_delta in *.
  destruct (choices c) as [|choice ?]; [done|].
  by destruct (choice_delta choice).
Qed.

(** With the caller's stage closed, a run of the chunk loop that does not
    raise saw no content delta. *)
Lemma consume_chunks_closed_stage chunks :
  ∀ st st', consume_chunks st chunks = Ok st' →
    stage_closed (r_stage st) = true → content_deltas chunks = [].
Proof.
  induction chunks as [|c chunks IH]; intros st st' Hrun Hclosed; [done|].
  simpl in Hrun. destruct (consume_chunk st c) as [st1|] eqn:Hc; [|done].
  simpl in Hrun.
  pose proof (consume_chunks_stage [c] st st1) as Hstage. simpl in Hstage.
  rewrite Hc in Hstage. specialize (Hstage eq_refl).
  unfold content_deltas. rewrite bind_cons.
  fold (content_deltas chunks). rewrite (IH _ _ Hrun).
  2:{ by rewrite Hstage. }
  rewrite app_nil_r.
  unfold consume_chunk, content_delta, first_delta in *.
  destruct (choices c) as [|choice ?]; [done|].
  destruct (choice_delta choice) as [delta|]; [|done].
  unfold mirror_content, append_content in Hc. rewrite Hclosed in Hc.
  by destruct (truthy_str (delta_content delta)).
Qed.

Lemma consume_chunk_returns_any st c m :
  has_delta c = true →
  (stage_closed (r_stage st) = true → content_delta c = []) →
  propagate_stages (r_stages_map st) (stage_delta c) = Ok m →
  ∃ st', consume_chunk st c = Ok st' ∧
         stage_closed (r_stage st') = stage_closed (r_stage st) ∧
         r_stages_map st' = m.
Proof.
  intros Hdelta Hmirror Hm.
  unfold consume_chunk, has_delta, stage_delta, content_delta, custom_delta,
    first_delta in *.
  destruct (choices c) as [|choice ?].
  { injection Hm as <-. eauto. }
  destruct (choice_delta choice) as [delta|]; [|done]. simpl in Hm.
  assert (∃ st1, mirror_content st delta = Ok st1 ∧
                 stage_closed (r_stage st1) = stage_closed (r_stage st) ∧
                 r_stages_map st1 = r_stages_map st)
    as (st1 & -> & Hclosed1 & Hmap1).
  { unfold mirror_content, append_content.
    destruct (truthy_str (delta_content delta)); [|eauto].
    destruct (stage_closed (r_stage st)) eqn:Hclosed; simpl; [|eauto].
    by specialize (Hmirror eq_refl). }
  simpl. destruct (delta_custom_content delta) as [cc|].
  2:{ injection Hm as <-. eauto. }
  unfold collect_custom_content. rewrite Hmap1.
  destruct (truthy_list (ccd_stages cc)) eqn:Hstages.
  - rewrite Hm. simpl. eauto.
  - rewrite truthy_list_default in Hm by done.
    injection Hm as <-. simpl. eauto.
Qed.

Lemma consume_chunks_returns_any chunks :
  ∀ st m,
    Forall (λ c, has_delta c = true) chunks →
    (stage_closed (r_stage st) = true → content_deltas chunks = []) →
    propagate_stages (r_stages_map st) (stage_deltas chunks) = Ok m →
    ∃ st', consume_chunks st chunks = Ok st'.
Proof.
  induction chunks as [|c chunks IH]; intros st m Hwf Hmirror Hm; simpl.
  - eauto.
  - inversion Hwf as [|? ? Hc Hrest]; subst.
    unfold stage_deltas in Hm. rewrite bind_cons in Hm.
    rewrite propagate_stages_app in Hm.
    destruct (propagate_stages (r_stages_map st) (stage_delta c))
      as [m1|] eqn:Hm1; [|done].
    unfold content_deltas in Hmirror. rewrite bind_cons in Hmirror.
    destruct (consume_chunk_returns_any st c m1 Hc) as (st1 & -> & Hcl & <-);
      [|done|].
    { intros Hclosed. by destruct (app_eq_nil _ _ (Hmirror Hclosed)). }
    simpl in *. apply (IH st1 m); [done| |done].
    rewrite Hcl. intros Hclosed.
    by destruct (app_eq_nil _ _ (Hmirror Hclosed)).
Qed.

(** X15.  Once a request can be sent, the invocation returns a tool message
    exactly when the stream ends normally, the first choice of every chunk
    that has choices has a delta, no content arrives while the caller's stage
    is closed, and no stage is given a name, content or attachments after its
    completion signal. *)
Theorem execute_returns_iff py_str send self p req :
  request py_str self p = Ok req →
  (∃ o, _execute py_str send self p = Ok o) ↔
  stream_end (send req) = Exhausted ∧
  Forall (λ c, has_delta c = true) (stream_chunks (send req)) ∧
  (stage_closed (stage p) = true →
   content_deltas (stream_chunks (send req)) = []) ∧
  ∀ idx,
    orderly (tail (deltas_for idx (stage_deltas (stream_chunks (send req)))))
    = true.
Proof.
  intros Hreq.
  destruct (request_inv _ _ _ _ Hreq)
    as (stage1 & forwarded & msgs & Hlabel & Hmsgs & ->).
  pose proof (label_stage_inv _ _ _ _ Hlabel) as Hstage1.
  set (req := build_request self p forwarded msgs) in *.
  unfold _execute. rewrite Hlabel. simpl. rewrite Hmsgs. simpl.
  fold req. unfold consume_stream. split.
  - intros [o Hrun].
    destruct (consume_chunks (fresh stage1) (stream_chunks (send req)))
      as [st|] eqn:Hchunks; [|done].
    simpl in Hrun. destruct (stream_end (send req)); [|done].
    split; [done|]. split; [by eapply consume_chunks_has_delta|]. split.
    + intros Hclosed. eapply consume_chunks_closed_stage; [done|].
      simpl. by rewrite Hstage1.
    + apply consume_chunks_follows in Hchunks as [_ _ _ Hm].
      by eapply propagate_stages_orderly_inv.
  - intros (Hend & Hwf & Hmirror & Hord).
    destruct (propagate_stages_orderly _ Hord) as [m Hm].
    destruct (consume_chunks_returns_any _ (fresh stage1) m Hwf)
      as [st ->]; [|done|].
    { simpl. by rewrite Hstage1. }
    simpl. rewrite Hend. eauto.
Qed.

Lemma execute_returns_iff_witness :
  (∃ o, _execute str_of (answers busy_chunks) calc_tool one_shot_call = Ok o) ↔
  stream_end (answers busy_chunks one_shot_request) = Exhausted ∧
  Forall (λ c, has_delta c = true) busy_chunks ∧
  (stage_closed (stage one_shot_call) = true →
   content_deltas busy_chunks = []) ∧
  ∀ idx, orderly (tail (deltas_for idx (stage_deltas busy_chunks))) = true.
Proof.
  apply (execute_returns_iff str_of (answers busy_chunks) calc_tool
           one_shot_call one_shot_request).
  vm_compute. reflexivity.
Defined.



End InvocationFacts.

(** ** The web search application *)

Module WebSearchFacts.
Import WebSearchApp.

Section Application.

Context {Client ToolModel SdkRequest Reply : Type}.
Variables endpoint deployment url : string.
Variable handle :
  string → list (@BaseTool Client ToolModel) → string → SdkRequest
  → result Reply.

(** X17.  For requests handled one after another: when the MCP server lists
    its tools, the first request is handled with the two agent tools followed
    by one MCP tool per listed tool, in the server's order and all over the
    one connection; every request that starts after it has ended is handled
    with the same tools, whatever the MCP server would answer by then. *)
Theorem tools_are_created_once mcp client models request :
  MCPClient_create mcp url = Ok client →
  get_tools mcp client = Ok models →
  let tools := [ CalculationsAgentTool endpoint;
                 ContentManagementAgentTool endpoint ]
               ++ (MCPTool client <$> models) in
  chat_completion endpoint deployment url handle [] mcp request
  = (handle endpoint tools deployment request, tools) ∧
  ∀ mcp' request',
    chat_completion endpoint deployment url handle tools mcp' request'
    = (handle endpoint tools deployment request', tools).
Proof.
  intros Hcreate Hlist tools. split.
  - unfold chat_completion, _create_tools, _get_mcp_tools.
    by rewrite Hcreate; simpl; rewrite Hlist.
  - done.
Qed.

(** X18.  When the MCP server cannot be reached or cannot list its tools,
    the request fails with that very error, the agent is not run, and the
    application keeps no tools, so that the next request tries again. *)
Theorem mcp_failure_keeps_no_tools mcp e request :
  MCPClient_create mcp url = Raise e
  ∨ (∃ client, MCPClient_create mcp url = Ok client
               ∧ get_tools mcp client = Raise e) →
  chat_completion endpoint deployment url handle [] mcp request
  = (Raise e, []).
Proof.
  unfold chat_completion, _create_tools, _get_mcp_tools.
  intros [Hcreate | (client & Hcreate & Hlist)]; rewrite Hcreate; simpl;
    [done|by rewrite Hlist].
Qed.

End Application.

Lemma tools_are_created_once_witness :
  chat_completion "http://dial" "web-search-agent" "http://ddg/mcp"
    counting_agent [] listing_server "first"
  = (Ok 4%nat,
     [ CalculationsAgentTool "http://dial";
       ContentManagementAgentTool "http://dial";
       MCPTool "http://ddg/mcp" "search";
       MCPTool "http://ddg/mcp" "fetch_content" ]) ∧
  ∀ mcp' request',
    chat_completion "http://dial" "web-search-agent" "http://ddg/mcp"
      counting_agent
      [ CalculationsAgentTool "http://dial";
        ContentManagementAgentTool "http://dial";
        MCPTool "http://ddg/mcp" "search";
        MCPTool "http://ddg/mcp" "fetch_content" ] mcp' request'
    = (Ok 4%nat,
       [ CalculationsAgentTool "http://dial";
         ContentManagementAgentTool "http://dial";
         MCPTool "http://ddg/mcp" "search";
         MCPTool "http://ddg/mcp" "fetch_content" ]).
Proof.
  apply (tools_are_created_once "http://dial" "web-search-agent"
           "http://ddg/mcp" counting_agent listing_server "http://ddg/mcp"
           ["search"; "fetch_content"] "first").
  - reflexivity.
  - reflexivity.
Defined.

Lemma mcp_failure_keeps_no_tools_witness :
  chat_completion "http://dial" "web-search-agent" "http://ddg/mcp"
    counting_agent [] unreachable_server "first"
  = (Raise (RuntimeError "connection refused"), []).
Proof.
  apply (mcp_failure_keeps_no_tools "http://dial" "web-search-agent"
           "http://ddg/mcp" counting_agent unreachable_server).
  left. reflexivity.
Defined.

End WebSearchFacts.
